(** * expo-background-color: a stack of root-view background colors

    Shallow embedding of [index.tsx]: the module-level variables
    ([propsStack], [defaultProps], [updateImmediate], [appearanceListener],
    [appStateListener]) and the parts of the JavaScript runtime the module
    talks to (object heap, [setImmediate] queue, [Appearance], [AppState],
    [SystemUI]) are the fields of one [State]; every function of the module
    is a computation in a state-and-error monad over it. *)

From stdpp Require Import base option list gmap strings.

Set Warnings "-register-all".

(** * The model *)

(** ** JavaScript values *)

(** The values a [color] prop can hold at run time: a string, an object
    (a themed pair or an opaque platform color), or nothing.  Objects that
    are only read are kept as values; objects whose identity matters (the
    stack entries) live in the heap below. *)
Inductive JsValue : Type :=
| JsUndefined
| JsNull
| JsString (s : string)
| JsObject (fields : list (string * JsValue)).

(** [!!v] *)
Definition truthy (v : JsValue) : bool :=
  match v with
  | JsUndefined | JsNull => false
  | JsString s => negb (String.eqb s "")
  | JsObject _ => true
  end.

(** [v == null] *)
Definition isNullish (v : JsValue) : bool :=
  match v with
  | JsUndefined | JsNull => true
  | _ => false
  end.

(** [v ?? d] *)
Definition nullishCoalesce (v d : JsValue) : JsValue :=
  if isNullish v then d else v.

Infix "??" := nullishCoalesce (at level 45, left associativity).

(** [typeof v !== 'string'] *)
Definition notString (v : JsValue) : bool :=
  match v with
  | JsString _ => false
  | _ => true
  end.

(** [k in v].  The operator is only reached on objects: [isThemedColor]
    short-circuits on every other value before evaluating it. *)
Definition hasProperty (k : string) (v : JsValue) : bool :=
  match v with
  | JsObject fields => existsb (λ kv, String.eqb kv.1 k) fields
  | _ => false
  end.

Fixpoint lookupField (k : string) (fields : list (string * JsValue)) : JsValue :=
  match fields with
  | [] => JsUndefined
  | (k', v) :: rest => if String.eqb k' k then v else lookupField k rest
  end.

(** [v.k] *)
Definition getProperty (k : string) (v : JsValue) : JsValue :=
  match v with
  | JsObject fields => lookupField k fields
  | _ => JsUndefined
  end.

(** [ColorSchemeName]: ['light' | 'dark' | null | undefined]. *)
Inductive ColorSchemeName : Type :=
| SchemeLight
| SchemeDark
| SchemeNone.

(** [scheme === 'dark'] *)
Definition isDark (scheme : ColorSchemeName) : bool :=
  match scheme with
  | SchemeDark => true
  | _ => false
  end.

(** [type Props = { color: ... }] *)
Record Props : Type := mkProps { color : JsValue }.

(** ** The runtime state *)

(** Identities handed out by the runtime: object references, closures and
    timer handles are all drawn from one counter. *)
Definition ref : Type := nat.

(** Registrations and removals of listeners with [Appearance] and
    [AppState]. *)
Inductive ListenerCall : Type :=
| AddChangeListener (l : ref)
| RemoveChangeListener (l : ref)
| AddEventListener (l : ref)
| RemoveEventListener (l : ref).

Record State : Type := mkState {
  (* the runtime *)
  heap : gmap nat Props;  (* the Props objects allocated so far *)
  fresh : nat;  (* next unused identity *)
  colorScheme : ColorSchemeName;  (* Appearance.getColorScheme() *)
  immediates : list ref;  (* setImmediate callbacks not yet run *)
  appearanceSubs : list ref;  (* listeners registered with Appearance *)
  appStateSubs : list ref;  (* 'change' listeners registered with AppState *)
  colorCalls : list JsValue;  (* arguments of SystemUI.setBackgroundColorAsync, oldest first *)
  listenerCalls : list ListenerCall;  (* listener registrations and removals, oldest first *)
  (* the variables of the module *)
  propsStack : list ref;
  updateImmediate : option ref;
  appearanceListener : option ref;
  appStateListener : option ref
}.

(** [defaultProps] is the first object the module allocates. *)
Definition defaultProps : ref := 0.

Definition set_heap (h : gmap nat Props) (s : State) : State :=
  mkState h (fresh s) (colorScheme s) (immediates s)
    (appearanceSubs s) (appStateSubs s) (colorCalls s) (listenerCalls s)
    (propsStack s) (updateImmediate s) (appearanceListener s) (appStateListener s).

Definition set_fresh (n : nat) (s : State) : State :=
  mkState (heap s) n (colorScheme s) (immediates s)
    (appearanceSubs s) (appStateSubs s) (colorCalls s) (listenerCalls s)
    (propsStack s) (updateImmediate s) (appearanceListener s) (appStateListener s).

Definition set_colorScheme (c : ColorSchemeName) (s : State) : State :=
  mkState (heap s) (fresh s) c (immediates s)
    (appearanceSubs s) (appStateSubs s) (colorCalls s) (listenerCalls s)
    (propsStack s) (updateImmediate s) (appearanceListener s) (appStateListener s).

Definition set_immediates (q : list ref) (s : State) : State :=
  mkState (heap s) (fresh s) (colorScheme s) q
    (appearanceSubs s) (appStateSubs s) (colorCalls s) (listenerCalls s)
    (propsStack s) (updateImmediate s) (appearanceListener s) (appStateListener s).

Definition set_appearanceSubs (l : list ref) (s : State) : State :=
  mkState (heap s) (fresh s) (colorScheme s) (immediates s)
    l (appStateSubs s) (colorCalls s) (listenerCalls s)
    (propsStack s) (updateImmediate s) (appearanceListener s) (appStateListener s).

Definition set_appStateSubs (l : list ref) (s : State) : State :=
  mkState (heap s) (fresh s) (colorScheme s) (immediates s)
    (appearanceSubs s) l (colorCalls s) (listenerCalls s)
    (propsStack s) (updateImmediate s) (appearanceListener s) (appStateListener s).

Definition set_colorCalls (l : list JsValue) (s : State) : State :=
  mkState (heap s) (fresh s) (colorScheme s) (immediates s)
    (appearanceSubs s) (appStateSubs s) l (listenerCalls s)
    (propsStack s) (updateImmediate s) (appearanceListener s) (appStateListener s).

Definition set_listenerCalls (l : list ListenerCall) (s : State) : State :=
  mkState (heap s) (fresh s) (colorScheme s) (immediates s)
    (appearanceSubs s) (appStateSubs s) (colorCalls s) l
    (propsStack s) (updateImmediate s) (appearanceListener s) (appStateListener s).

Definition set_propsStack (l : list ref) (s : State) : State :=
  mkState (heap s) (fresh s) (colorScheme s) (immediates s)
    (appearanceSubs s) (appStateSubs s) (colorCalls s) (listenerCalls s)
    l (updateImmediate s) (appearanceListener s) (appStateListener s).

Definition set_updateImmediate (h : option ref) (s : State) : State :=
  mkState (heap s) (fresh s) (colorScheme s) (immediates s)
    (appearanceSubs s) (appStateSubs s) (colorCalls s) (listenerCalls s)
    (propsStack s) h (appearanceListener s) (appStateListener s).

Definition set_appearanceListener (l : option ref) (s : State) : State :=
  mkState (heap s) (fresh s) (colorScheme s) (immediates s)
    (appearanceSubs s) (appStateSubs s) (colorCalls s) (listenerCalls s)
    (propsStack s) (updateImmediate s) l (appStateListener s).

Definition set_appStateListener (l : option ref) (s : State) : State :=
  mkState (heap s) (fresh s) (colorScheme s) (immediates s)
    (appearanceSubs s) (appStateSubs s) (colorCalls s) (listenerCalls s)
    (propsStack s) (updateImmediate s) (appearanceListener s) l.

(** ** The monad: state plus an uncaught exception *)

Definition M (A : Type) : Type := State → option (A * State).

#[global] Instance M_ret : MRet M := λ A a s, Some (a, s).

#[global] Instance M_bind : MBind M := λ A B f m s,
  match m s with
  | Some (a, s') => f a s'
  | None => None
  end.

(** An uncaught [TypeError]. *)
Definition throw {A : Type} : M A := λ _, None.

Definition gets {A : Type} (f : State → A) : M A := λ s, Some (f s, s).

Definition modify (f : State → State) : M unit := λ s, Some (tt, f s).

(** [l.forEach(f)] *)
Fixpoint forEach {A : Type} (f : A → M unit) (l : list A) : M unit :=
  match l with
  | [] => mret tt
  | x :: rest => f x;; forEach f rest
  end.

(** [l.reduce(f, a)] *)
Fixpoint reduce {A B : Type} (f : A → B → M A) (l : list B) (a : A) : M A :=
  match l with
  | [] => mret a
  | x :: rest => a' ← f a x; reduce f rest a'
  end.

(** ** Runtime primitives *)

(** The value of [r.color]; a reference always points to an allocated
    object in JavaScript, the default only makes the read total. *)
Definition colorOf (h : gmap nat Props) (r : ref) : JsValue :=
  match h !! r with
  | Some o => color o
  | None => JsUndefined
  end.

(** An object literal [{ color: c }]. *)
Definition newObject (o : Props) : M ref := λ s,
  Some (fresh s, set_heap (<[fresh s := o]> (heap s)) (set_fresh (S (fresh s)) s)).

(** [r.color] *)
Definition getColor (r : ref) : M JsValue := gets (λ s, colorOf (heap s) r).

(** [r.color = c] *)
Definition putColor (r : ref) (c : JsValue) : M unit :=
  modify (λ s, set_heap (<[r := mkProps c]> (heap s)) s).

(** A function expression: only its identity is kept, its body is one of
    the two listener bodies below. *)
Definition newClosure : M ref := λ s, Some (fresh s, set_fresh (S (fresh s)) s).

(** [SystemUI.setBackgroundColorAsync(c)]; the promise is not awaited. *)
Definition SystemUI_setBackgroundColorAsync (c : JsValue) : M unit :=
  modify (λ s, set_colorCalls (colorCalls s ++ [c]) s).

(** Keeps track of a call to [Appearance] or [AppState]. *)
Definition logListener (c : ListenerCall) : M unit :=
  modify (λ s, set_listenerCalls (listenerCalls s ++ [c]) s).

(** [clearImmediate(h)]: nothing happens for [null] or a handle that has
    already run. *)
Definition clearImmediate (h : option ref) : M unit :=
  match h with
  | Some i => modify (λ s, set_immediates (filter (λ j, j ≠ i) (immediates s)) s)
  | None => mret tt
  end.

(** [setImmediate(cb)]: the module schedules one callback only, the
    recompute [updateImmediateCallback] below. *)
Definition setImmediate : M ref := λ s,
  Some (fresh s,
        set_immediates (immediates s ++ [fresh s]) (set_fresh (S (fresh s)) s)).

Definition Appearance_addChangeListener (l : ref) : M unit :=
  modify (λ s, set_appearanceSubs (appearanceSubs s ++ [l]) s);;
  logListener (AddChangeListener l).

Definition Appearance_removeChangeListener (l : ref) : M unit :=
  modify (λ s, set_appearanceSubs (filter (λ j, j ≠ l) (appearanceSubs s)) s);;
  logListener (RemoveChangeListener l).

Definition AppState_addEventListener (l : ref) : M unit :=
  modify (λ s, set_appStateSubs (appStateSubs s ++ [l]) s);;
  logListener (AddEventListener l).

Definition AppState_removeEventListener (l : ref) : M unit :=
  modify (λ s, set_appStateSubs (filter (λ j, j ≠ l) (appStateSubs s)) s);;
  logListener (RemoveEventListener l).

(** [a.indexOf(x)] on an array of objects compares identities; [None]
    stands for [-1]. *)
Fixpoint indexOf (l : list ref) (x : ref) : option nat :=
  match l with
  | [] => None
  | y :: rest => if decide (y = x) then Some 0 else S <$> indexOf rest x
  end.

(** ** The module *)

Definition isThemedColor (c : JsValue) : bool :=
  truthy c && notString c && hasProperty "light" c && hasProperty "dark" c.

(** The argument [setColorAsync] passes to
    [SystemUI.setBackgroundColorAsync]. *)
Definition resolve (scheme : ColorSchemeName) (c : JsValue) : JsValue :=
  if isThemedColor c then
    if isDark scheme
    then getProperty "dark" c ?? JsString "#000"
    else getProperty "light" c ?? JsString "#fff"
  else c ?? JsString "#fff".

Definition setColorAsync (scheme : ColorSchemeName) (c : JsValue) : M unit :=
  SystemUI_setBackgroundColorAsync (resolve scheme c).

Definition createStackEntry (props : Props) : M ref :=
  newObject (mkProps (color props)).

(** [Object.assign({}, defaultValues)] followed by the [reduce]: every
    entry has the single property [color]. *)
Definition mergePropsStack (stack : list ref) (defaultValues : ref) : M ref :=
  c0 ← getColor defaultValues;
  copy ← newObject (mkProps c0);
  reduce (λ prev cur,
            c ← getColor cur;
            (if isNullish c then mret tt else putColor prev c);;
            mret prev)
         stack copy.

(** The function handed to [setImmediate] in [_updatePropsStack]. *)
Definition updateImmediateCallback : M unit :=
  stack ← gets propsStack;
  merged ← mergePropsStack stack defaultProps;
  c ← getColor merged;
  if truthy c
  then scheme ← gets colorScheme; setColorAsync scheme c
  else mret tt.

Definition _updatePropsStack : M unit :=
  h ← gets updateImmediate;
  clearImmediate h;;
  h' ← setImmediate;
  modify (set_updateImmediate (Some h')).

(** [propsStack[propsStack.length - 1].color]: reading [color] of
    [undefined] throws. *)
Definition topColor : M JsValue :=
  stack ← gets propsStack;
  match last stack with
  | Some r => getColor r
  | None => throw
  end.

(** Body of the closure stored in [appearanceListener]. *)
Definition appearanceListenerBody (scheme : ColorSchemeName) : M unit :=
  c ← topColor;
  setColorAsync scheme c.

(** Body of the closure stored in [appStateListener]. *)
Definition appStateListenerBody : M unit :=
  scheme ← gets colorScheme;
  c ← topColor;
  setColorAsync scheme c.

Definition setColor (c : JsValue) : M unit :=
  putColor defaultProps c;;
  scheme ← gets colorScheme;
  setColorAsync scheme c.

Definition pushStackEntry (props : Props) : M ref :=
  entry ← createStackEntry props;
  modify (λ s, set_propsStack (propsStack s ++ [entry]) s);;
  al ← gets appearanceListener;
  match al with
  | None =>
      l ← newClosure;
      modify (set_appearanceListener (Some l));;
      Appearance_addChangeListener l
  | Some _ => mret tt
  end;;
  sl ← gets appStateListener;
  match sl with
  | None =>
      l ← newClosure;
      modify (set_appStateListener (Some l));;
      AppState_addEventListener l
  | Some _ => mret tt
  end;;
  _updatePropsStack;;
  mret entry.

Definition popStackEntry (entry : ref) : M unit :=
  stack ← gets propsStack;
  match indexOf stack entry with
  | Some index => modify (set_propsStack (delete index stack))
  | None => mret tt
  end;;
  stack' ← gets propsStack;
  (if decide (length stack' = 0) then
     al ← gets appearanceListener;
     match al with
     | Some l =>
         Appearance_removeChangeListener l;;
         modify (set_appearanceListener None)
     | None => mret tt
     end;;
     sl ← gets appStateListener;
     match sl with
     | Some l =>
         AppState_removeEventListener l;;
         modify (set_appStateListener None)
     | None => mret tt
     end
   else mret tt);;
  _updatePropsStack.

Definition replaceStackEntry (entry : ref) (props : Props) : M ref :=
  newEntry ← createStackEntry props;
  stack ← gets propsStack;
  match indexOf stack entry with
  | Some index => modify (set_propsStack (<[index := newEntry]> stack))
  | None => mret tt
  end;;
  _updatePropsStack;;
  mret newEntry.

(** ** Everything that can happen to the module *)

Inductive Op : Type :=
| Push (props : Props)
| Pop (entry : ref)
| Replace (entry : ref) (props : Props)
| SetColor (c : JsValue)
| RunImmediates                              (* the current synchronous unit ends *)
| AppearanceChange (scheme : ColorSchemeName) (* the system theme becomes [scheme] *)
| AppStateChange.                            (* the app changes foreground state *)

(** The event loop runs the pending immediates in the order they were
    scheduled. *)
Definition runImmediates : M unit :=
  q ← gets immediates;
  modify (set_immediates []);;
  forEach (λ _, updateImmediateCallback) q.

Definition exec (op : Op) : M unit :=
  match op with
  | Push props => pushStackEntry props;; mret tt
  | Pop entry => popStackEntry entry
  | Replace entry props => replaceStackEntry entry props;; mret tt
  | SetColor c => setColor c
  | RunImmediates => runImmediates
  | AppearanceChange scheme =>
      modify (set_colorScheme scheme);;
      subs ← gets appearanceSubs;
      forEach (λ _, appearanceListenerBody scheme) subs
  | AppStateChange =>
      subs ← gets appStateSubs;
      forEach (λ _, appStateListenerBody) subs
  end.

Fixpoint run (ops : list Op) (s : State) : option State :=
  match ops with
  | [] => Some s
  | op :: rest =>
      match exec op s with
      | Some (_, s') => run rest s'
      | None => None
      end
  end.

(** The state once the module has been loaded: [defaultProps] has been
    created from [{ color: '#fff' }]; the system theme is whatever it is. *)
Definition init (scheme : ColorSchemeName) : State :=
  mkState {[ defaultProps := mkProps (JsString "#fff") ]} 1 scheme [] [] [] [] []
    [] None None None.

Definition reachable (s : State) : Prop :=
  ∃ scheme ops, run ops (init scheme) = Some s.

(** The [color] the deferred recompute reads off the merged object. *)
Definition effectiveColor (s : State) : JsValue :=
  match (merged ← mergePropsStack (propsStack s) defaultProps; getColor merged) s with
  | Some (c, _) => c
  | None => JsUndefined
  end.

(** Mutations of the stack. *)
Definition isMutation (op : Op) : bool :=
  match op with
  | Push _ | Pop _ | Replace _ _ => true
  | _ => false
  end.

(** The pure content of [mergePropsStack]: a later entry overwrites the
    running color unless its own color is [null] or [undefined]. *)
Definition mergeColors (acc : JsValue) (cs : list JsValue) : JsValue :=
  foldl (λ prev c, if isNullish c then prev else c) acc cs.

(** * Definitions used to state and prove the properties *)

(** What every operation preserves: identities below [fresh] are taken
    and the others are not; the stack holds distinct objects, none of
    them [defaultProps]; what is registered with [Appearance] and
    [AppState] is what the module holds, and it holds listeners exactly
    when the stack is non-empty; at most one immediate is pending, the
    one in [updateImmediate]. *)
Record Inv (s : State) : Prop := mkInv {
  inv_default : defaultProps < fresh s;
  inv_heap : ∀ r, fresh s ≤ r → heap s !! r = None;
  inv_stack : ∀ r, r ∈ propsStack s → defaultProps < r ∧ r < fresh s;
  inv_nodup : NoDup (propsStack s);
  inv_appearanceSubs : appearanceSubs s = option_list (appearanceListener s);
  inv_appStateSubs : appStateSubs s = option_list (appStateListener s);
  inv_appearanceListener : appearanceListener s = None ↔ propsStack s = [];
  inv_appStateListener : appStateListener s = None ↔ propsStack s = [];
  inv_immediates :
    immediates s = [] ∨ immediates s = option_list (updateImmediate s);
  inv_immediates_alloc : ∀ i, i ∈ immediates s → i < fresh s
}.

(** The state [_updatePropsStack] leaves behind: whatever was pending is
    gone and one new immediate is pending. *)
Definition scheduled (s : State) : State :=
  set_updateImmediate (Some (fresh s))
    (set_immediates [fresh s] (set_fresh (S (fresh s)) s)).

(** The functions below give the state each operation ends in when it
    starts from a state satisfying [Inv]; each is proved equal to the
    monadic code further down. *)

(** [pushStackEntry]: the entry is [fresh s]; a push onto the empty stack
    also creates and registers both listeners. *)
Definition pushed (props : Props) (s : State) : State :=
  let entry := fresh s in
  let s1 := set_propsStack (propsStack s ++ [entry])
              (set_heap (<[entry := mkProps (color props)]> (heap s))
                 (set_fresh (S entry) s)) in
  match propsStack s with
  | [] =>
      scheduled
        (set_listenerCalls
           (listenerCalls s ++ [AddChangeListener (S entry); AddEventListener (S (S entry))])
           (set_appStateSubs [S (S entry)]
              (set_appStateListener (Some (S (S entry)))
                 (set_appearanceSubs [S entry]
                    (set_appearanceListener (Some (S entry))
                       (set_fresh (S (S (S entry))) s1))))))
  | _ :: _ => scheduled s1
  end.

(** The stack after [propsStack.splice(indexOf(entry), 1)], guarded by
    [index !== -1]. *)
Definition spliced (entry : ref) (stack : list ref) : list ref :=
  match indexOf stack entry with
  | Some index => delete index stack
  | None => stack
  end.

(** [popStackEntry]: when the stack is left empty and listeners are
    held, both are removed. *)
Definition popped (entry : ref) (s : State) : State :=
  let s1 := set_propsStack (spliced entry (propsStack s)) s in
  match spliced entry (propsStack s), appearanceListener s, appStateListener s with
  | [], Some l, Some l' =>
      scheduled
        (set_appStateListener None
           (set_listenerCalls
              (listenerCalls s ++ [RemoveChangeListener l; RemoveEventListener l'])
              (set_appStateSubs []
                 (set_appearanceListener None
                    (set_appearanceSubs [] s1)))))
  | _, _, _ => scheduled s1
  end.

(** The stack after [propsStack[indexOf(entry)] = newEntry], guarded by
    [index !== -1]. *)
Definition overwritten (entry newEntry : ref) (stack : list ref) : list ref :=
  match indexOf stack entry with
  | Some index => <[index := newEntry]> stack
  | None => stack
  end.

(** [replaceStackEntry]: the new entry is [fresh s]. *)
Definition replaced (entry : ref) (props : Props) (s : State) : State :=
  let newEntry := fresh s in
  scheduled
    (set_propsStack (overwritten entry newEntry (propsStack s))
       (set_heap (<[newEntry := mkProps (color props)]> (heap s))
          (set_fresh (S newEntry) s))).

(** [setColor] needs no invariant. *)
Definition colorSet (c : JsValue) (s : State) : State :=
  set_colorCalls (colorCalls s ++ [resolve (colorScheme s) c])
    (set_heap (<[defaultProps := mkProps c]> (heap s)) s).

(** The color of the object [mergePropsStack] returns. *)
Definition mergedColor (s : State) : JsValue :=
  mergeColors (colorOf (heap s) defaultProps) (map (colorOf (heap s)) (propsStack s)).

(** [updateImmediateCallback]: the merged object is [fresh s]. *)
Definition recomputed (s : State) : State :=
  let s1 := set_heap (<[fresh s := mkProps (mergedColor s)]> (heap s))
              (set_fresh (S (fresh s)) s) in
  if truthy (mergedColor s)
  then set_colorCalls (colorCalls s ++ [resolve (colorScheme s) (mergedColor s)]) s1
  else s1.

(** A listener body run on a non-empty stack. *)
Definition notified (scheme : ColorSchemeName) (s : State) : State :=
  match last (propsStack s) with
  | Some top => set_colorCalls (colorCalls s ++ [resolve scheme (colorOf (heap s) top)]) s
  | None => s
  end.

(** [exec] on a state satisfying the invariant. *)
Definition step (op : Op) (s : State) : State :=
  match op with
  | Push props => pushed props s
  | Pop entry => popped entry s
  | Replace entry props => replaced entry props s
  | SetColor c => colorSet c s
  | RunImmediates =>
      match immediates s with
      | [] => s
      | _ :: _ => recomputed (set_immediates [] s)
      end
  | AppearanceChange scheme => notified scheme (set_colorScheme scheme s)
  | AppStateChange => notified (colorScheme s) s
  end.

(** [run], likewise. *)
Definition steps (ops : list Op) (s : State) : State :=
  foldl (λ s op, step op s) s ops.

(** [SetColor] is the only step that writes to an object that already
    exists, and the object it writes to is [defaultProps]. *)
Definition isSetColor (op : Op) : bool :=
  match op with
  | SetColor _ => true
  | _ => false
  end.

(** The themed pair of the README. *)
Definition themedPair : JsValue :=
  JsObject [("light"%string, JsString "#fff"); ("dark"%string, JsString "#000")].

(** A pair whose [dark] key is missing. *)
Definition lightOnly : JsValue :=
  JsObject [("light"%string, JsString "#fff")].

(** A pair whose [dark] key is there and holds [undefined]. *)
Definition darkUndefined : JsValue :=
  JsObject [("light"%string, JsString "#fff"); ("dark"%string, JsUndefined)].

(** The requests of type [Props]: [color] is there. *)
Definition requestGiven (op : Op) : bool :=
  match op with
  | Push props | Replace _ props => negb (isNullish (color props))
  | _ => true
  end.

(** Every entry on the stack carries a color. *)
Definition stackGiven (s : State) : Prop :=
  ∀ r, r ∈ propsStack s → isNullish (colorOf (heap s) r) = false.

(** * The component *)

(** [React.useRef<Props | null>(null)]: the cell [stack] of one instance
    of [BackgroundColor] holds [stack.current], the handle of its entry. *)

(** The first effect, run once when the instance has mounted:
    [stack.current = BackgroundColor.pushStackEntry(props)]. *)
Definition mountEffect (props : Props) : M (option ref) :=
  entry ← pushStackEntry props;
  mret (Some entry).

(** The function the first effect returns, run when the instance
    unmounts. *)
Definition mountEffectCleanup (current : option ref) : M unit :=
  match current with
  | Some entry => popStackEntry entry
  | None => mret tt
  end.

(** The second effect, run after the first one when the instance has
    mounted and again after every render that changed [props.color]; the
    result is the new [stack.current]. *)
Definition colorEffect (current : option ref) (props : Props) : M (option ref) :=
  match current with
  | Some entry =>
      newEntry ← replaceStackEntry entry props;
      mret (Some newEntry)
  | None => mret None
  end.

(** A mounted instance: its ref cell and the [color] of the props its
    effects last ran with. *)
Record Instance : Type := mkInstance {
  current : option ref;
  colorProp : JsValue
}.

(** The module together with the instances React has mounted, oldest
    first. *)
Record World : Type := mkWorld {
  moduleState : State;
  instances : list Instance
}.

(** What React, the application and the system do.  An instance is
    named by its position among the mounted ones. *)
Inductive Event : Type :=
| Mount (props : Props)              (* a new instance is committed: both effects run *)
| Update (i : nat) (props : Props)   (* instance [i] rendered with another [props.color] *)
| Unmount (i : nat)                  (* instance [i] is removed: the cleanup runs *)
| SetDefault (c : JsValue)           (* [BackgroundColor.setColor(c)] is called *)
| EndOfUnit                          (* the current synchronous unit ends *)
| ThemeChange (scheme : ColorSchemeName)
| AppStateChanged.

(** An operation of the module, the instances staying as they are. *)
Definition onModule (op : Op) (w : World) : option World :=
  match exec op (moduleState w) with
  | Some (_, s') => Some (mkWorld s' (instances w))
  | None => None
  end.

(** React never updates or unmounts an instance that is not mounted:
    such an event is no event. *)
Definition react (ev : Event) (w : World) : option World :=
  match ev with
  | Mount props =>
      match (cur ← mountEffect props; colorEffect cur props) (moduleState w) with
      | Some (cur, s') => Some (mkWorld s' (instances w ++ [mkInstance cur (color props)]))
      | None => None
      end
  | Update i props =>
      match instances w !! i with
      | Some inst =>
          match colorEffect (current inst) props (moduleState w) with
          | Some (cur, s') =>
              Some (mkWorld s' (<[i := mkInstance cur (color props)]> (instances w)))
          | None => None
          end
      | None => Some w
      end
  | Unmount i =>
      match instances w !! i with
      | Some inst =>
          match mountEffectCleanup (current inst) (moduleState w) with
          | Some (_, s') => Some (mkWorld s' (delete i (instances w)))
          | None => None
          end
      | None => Some w
      end
  | SetDefault c => onModule (SetColor c) w
  | EndOfUnit => onModule RunImmediates w
  | ThemeChange scheme => onModule (AppearanceChange scheme) w
  | AppStateChanged => onModule AppStateChange w
  end.

Fixpoint reactAll (evs : list Event) (w : World) : option World :=
  match evs with
  | [] => Some w
  | ev :: rest =>
      match react ev w with
      | Some w' => reactAll rest w'
      | None => None
      end
  end.

(** Nothing is mounted when the module has been loaded. *)
Definition initWorld (scheme : ColorSchemeName) : World := mkWorld (init scheme) [].

(** The renders whose props carry a color. *)
Definition eventGiven (ev : Event) : bool :=
  match ev with
  | Mount props | Update _ props => negb (isNullish (color props))
  | _ => true
  end.

(** What the events preserve: the stack is made of the handles the
    mounted instances hold, in the order of mounting, and every entry
    has the color its instance last rendered with. *)
Record WInv (w : World) : Prop := mkWInv {
  winv_module : Inv (moduleState w);
  winv_handles : current <$> instances w = Some <$> propsStack (moduleState w);
  winv_colors :
    colorProp <$> instances w
    = colorOf (heap (moduleState w)) <$> propsStack (moduleState w)
}.

(** * Lemmas *)

(** ** Unfolding the monad *)

Ltac unfold_prims :=
  unfold createStackEntry, setColorAsync, SystemUI_setBackgroundColorAsync,
    Appearance_addChangeListener, Appearance_removeChangeListener,
    AppState_addEventListener, AppState_removeEventListener, logListener,
    clearImmediate, setImmediate, newObject, newClosure, putColor, getColor,
    gets, modify, throw in *;
  unfold mbind, mret, M_bind, M_ret in *.

Section Merge.

Lemma set_heap_id s : set_heap (heap s) s = s.
Proof. by destruct s. Qed.

Lemma colorOf_insert_ne h r r' o : r ≠ r' → colorOf (<[r := o]> h) r' = colorOf h r'.
Proof. intros Hne. unfold colorOf. by rewrite lookup_insert_ne. Qed.

Lemma colorOf_insert_eq h r o : colorOf (<[r := o]> h) r = color o.
Proof. unfold colorOf. by rewrite lookup_insert_eq. Qed.

Lemma map_colorOf_insert h r o (l : list ref) :
  r ∉ l → map (colorOf (<[r := o]> h)) l = map (colorOf h) l.
Proof.
  induction l as [|x l IH]; [done|].
  intros Hnotin. apply not_elem_of_cons in Hnotin as [Hx Hl].
  simpl. rewrite colorOf_insert_ne by done. by rewrite IH.
Qed.

(** The loop of [mergePropsStack], started on an accumulator object that
    is not itself on the stack. *)
Lemma reduce_merge (stack : list ref) : ∀ s prev acc,
  heap s !! prev = Some (mkProps acc) →
  prev ∉ stack →
  reduce (λ prev cur,
            c ← getColor cur;
            (if isNullish c then mret tt else putColor prev c);;
            mret prev) stack prev s
  = Some (prev,
          set_heap (<[prev := mkProps (mergeColors acc (map (colorOf (heap s)) stack))]>
                      (heap s)) s).
Proof.
  induction stack as [|cur stack IH]; intros s prev acc Hprev Hnotin.
  - simpl. unfold_prims. by rewrite insert_id, set_heap_id.
  - apply not_elem_of_cons in Hnotin as [Hcur Hrest].
    simpl. unfold_prims. simpl.
    destruct (isNullish (colorOf (heap s) cur)) eqn:Hnull.
    + by apply IH.
    + unfold_prims.
      erewrite (IH (set_heap _ s)); [|simpl; by rewrite lookup_insert_eq|done].
      simpl. rewrite insert_insert_eq, map_colorOf_insert by done. done.
Qed.

Lemma mergePropsStack_eq stack d s :
  fresh s ∉ stack →
  mergePropsStack stack d s
  = Some (fresh s,
          set_heap (<[fresh s := mkProps (mergeColors (colorOf (heap s) d)
                                                      (map (colorOf (heap s)) stack))]>
                      (heap s))
                   (set_fresh (S (fresh s)) s)).
Proof.
  intros Hfresh. unfold mergePropsStack. unfold_prims. simpl.
  erewrite reduce_merge; [|simpl; by rewrite lookup_insert_eq|done].
  simpl. by rewrite insert_insert_eq, map_colorOf_insert.
Qed.

End Merge.

(** ** Facts about [indexOf] *)

Section IndexOf.

Lemma indexOf_Some (l : list ref) x i :
  indexOf l x = Some i → ∃ l1 l2, l = l1 ++ x :: l2 ∧ i = length l1 ∧ x ∉ l1.
Proof.
  revert i. induction l as [|y l IH]; intros i; simpl; [done|].
  case_decide as Hy.
  - intros [= <-]. exists [], l. subst. split_and!; [done..|]. apply not_elem_of_nil.
  - destruct (indexOf l x) as [j|] eqn:Hj; simpl; [|done].
    intros [= <-]. destruct (IH j eq_refl) as (l1 & l2 & -> & -> & Hnotin).
    exists (y :: l1), l2. split_and!; [done..|].
    apply not_elem_of_cons. split; [congruence|done].
Qed.

Lemma indexOf_None (l : list ref) x : indexOf l x = None ↔ x ∉ l.
Proof.
  induction l as [|y l IH]; simpl.
  - split; [intros _; apply not_elem_of_nil|done].
  - rewrite not_elem_of_cons. case_decide as Hy.
    + split; [done|]. intros [Hne _]. congruence.
    + destruct (indexOf l x) eqn:Hj; simpl.
      * split; [done|]. intros [_ Hl]. by apply IH in Hl.
      * split; [|done]. intros _. split; [congruence|]. by apply IH.
Qed.

Lemma indexOf_is_Some (l : list ref) x : x ∈ l → is_Some (indexOf l x).
Proof.
  intros Hin. destruct (indexOf l x) eqn:Hi; [by eexists|].
  by apply indexOf_None in Hi.
Qed.

End IndexOf.

(** ** The operations on states satisfying the invariant *)

Lemma filter_ne_singleton (i : ref) : filter (λ j, j ≠ i) [i] = [].
Proof. rewrite filter_cons, filter_nil. by rewrite decide_False by (intros Hne; by apply Hne). Qed.

Lemma _updatePropsStack_eq s :
  immediates s = [] ∨ immediates s = option_list (updateImmediate s) →
  _updatePropsStack s = Some (tt, scheduled s).
Proof.
  intros Him. unfold _updatePropsStack, scheduled. unfold_prims.
  destruct (updateImmediate s) as [i|] eqn:Hi; simpl.
  - destruct Him as [-> | ->]; simpl; [done|]. by rewrite filter_ne_singleton.
  - by destruct Him as [-> | ->].
Qed.

Lemma pushStackEntry_eq props s :
  Inv s → pushStackEntry props s = Some (fresh s, pushed props s).
Proof.
  intros [Hd Hh Hst Hnd Has Hss Hal Hsl Him Hia].
  unfold pushStackEntry, pushed. unfold_prims. simpl.
  destruct (propsStack s) as [|x stack] eqn:Hstack.
  - assert (appearanceListener s = None) as Ha by (by apply Hal).
    assert (appStateListener s = None) as Hs by (by apply Hsl).
    rewrite Ha in *. simpl. rewrite Hs in *. simpl.
    rewrite _updatePropsStack_eq by (simpl; done).
    simpl in *. rewrite Has, Hss, <- app_assoc. done.
  - destruct (appearanceListener s) as [l|] eqn:Ha;
      [|by pose proof (proj1 Hal eq_refl)].
    destruct (appStateListener s) as [l'|] eqn:Hs;
      [|by pose proof (proj1 Hsl eq_refl)].
    simpl. rewrite Hs. simpl.
    rewrite _updatePropsStack_eq by (simpl; done). done.
Qed.

Lemma set_propsStack_id s : set_propsStack (propsStack s) s = s.
Proof. by destruct s. Qed.

Lemma set_immediates_id s : set_immediates (immediates s) s = s.
Proof. by destruct s. Qed.

Lemma popStackEntry_eq entry s :
  Inv s → popStackEntry entry s = Some (tt, popped entry s).
Proof.
  intros [Hd Hh Hst Hnd Has Hss Hal Hsl Him Hia].
  assert (∀ l, (match indexOf (propsStack s) entry with
                | Some index => modify (set_propsStack (delete index l))
                | None => mret tt
                end) s = Some (tt, set_propsStack (match indexOf (propsStack s) entry with
                                                   | Some index => delete index l
                                                   | None => propsStack s
                                                   end) s)) as Hsplice.
  { intros l. destruct (indexOf (propsStack s) entry); unfold_prims; [done|].
    by rewrite set_propsStack_id. }
  unfold popStackEntry, popped, spliced. unfold_prims. simpl.
  rewrite Hsplice. simpl.
  destruct (match indexOf (propsStack s) entry with
            | Some index => delete index (propsStack s)
            | None => propsStack s
            end) as [|x stack'] eqn:Hstack'; simpl.
  - destruct (appearanceListener s) as [l|] eqn:Ha; simpl.
    + destruct (appStateListener s) as [l'|] eqn:Hs; simpl.
      * rewrite _updatePropsStack_eq by (simpl; done).
        simpl in *. rewrite Has, Hss, !filter_ne_singleton, <- app_assoc. done.
      * pose proof (proj1 Hsl eq_refl) as Hnil. by pose proof (proj2 Hal Hnil).
    + destruct (appStateListener s) as [l'|] eqn:Hs; simpl.
      * pose proof (proj1 Hal eq_refl) as Hnil. by pose proof (proj2 Hsl Hnil).
      * rewrite _updatePropsStack_eq by (simpl; done). done.
  - rewrite _updatePropsStack_eq by (simpl; done).
    by destruct (appearanceListener s), (appStateListener s).
Qed.

Lemma replaceStackEntry_eq entry props s :
  Inv s → replaceStackEntry entry props s = Some (fresh s, replaced entry props s).
Proof.
  intros [Hd Hh Hst Hnd Has Hss Hal Hsl Him Hia].
  unfold replaceStackEntry, replaced, overwritten. unfold_prims. simpl.
  destruct (indexOf (propsStack s) entry) as [index|]; simpl.
  - rewrite _updatePropsStack_eq by (simpl; done). done.
  - rewrite _updatePropsStack_eq by (simpl; done). done.
Qed.

Lemma setColor_eq c s : setColor c s = Some (tt, colorSet c s).
Proof. done. Qed.

Lemma updateImmediateCallback_eq s :
  fresh s ∉ propsStack s → updateImmediateCallback s = Some (tt, recomputed s).
Proof.
  intros Hfresh. unfold updateImmediateCallback, recomputed.
  unfold mbind, M_bind, gets. rewrite mergePropsStack_eq by done.
  unfold_prims. simpl. rewrite colorOf_insert_eq. simpl.
  fold (mergedColor s). by destruct (truthy (mergedColor s)).
Qed.

Lemma effectiveColor_eq s : fresh s ∉ propsStack s → effectiveColor s = mergedColor s.
Proof.
  intros Hfresh. unfold effectiveColor.
  unfold mbind, M_bind. rewrite mergePropsStack_eq by done.
  unfold_prims. simpl. by rewrite colorOf_insert_eq.
Qed.

Lemma Inv_fresh_notin s : Inv s → fresh s ∉ propsStack s.
Proof. intros Hinv Hin. apply (inv_stack _ Hinv) in Hin. lia. Qed.

Lemma runImmediates_eq s :
  Inv s → runImmediates s = Some (tt, step RunImmediates s).
Proof.
  intros Hinv. pose proof (Inv_fresh_notin s Hinv) as Hfresh.
  assert (length (immediates s) ≤ 1) as Hlen.
  { destruct (inv_immediates s Hinv) as [-> | ->]; [simpl; lia|].
    destruct (updateImmediate s); simpl; lia. }
  unfold runImmediates, step. unfold gets, modify. unfold mbind, M_bind.
  destruct (immediates s) as [|i [|j q]] eqn:Hq; simpl in *; [| |lia].
  - unfold mret, M_ret. by rewrite <- Hq, set_immediates_id.
  - fold (@mbind M _ unit unit). unfold mbind, M_bind.
    rewrite updateImmediateCallback_eq by done. done.
Qed.

Lemma listeners_held s :
  Inv s → propsStack s ≠ [] →
  ∃ l l', appearanceListener s = Some l ∧ appStateListener s = Some l'
          ∧ appearanceSubs s = [l] ∧ appStateSubs s = [l'].
Proof.
  intros Hinv Hne.
  destruct (appearanceListener s) as [l|] eqn:Ha;
    [|by apply (inv_appearanceListener s Hinv) in Ha].
  destruct (appStateListener s) as [l'|] eqn:Hs;
    [|by apply (inv_appStateListener s Hinv) in Hs].
  exists l, l'. split_and!; [done..| |].
  - by rewrite (inv_appearanceSubs s Hinv), Ha.
  - by rewrite (inv_appStateSubs s Hinv), Hs.
Qed.

Lemma listeners_free s :
  Inv s → propsStack s = [] →
  appearanceListener s = None ∧ appStateListener s = None
  ∧ appearanceSubs s = [] ∧ appStateSubs s = [].
Proof.
  intros Hinv Hnil.
  assert (appearanceListener s = None) as Ha by (by apply (inv_appearanceListener s Hinv)).
  assert (appStateListener s = None) as Hs by (by apply (inv_appStateListener s Hinv)).
  split_and!; [done..| |].
  - by rewrite (inv_appearanceSubs s Hinv), Ha.
  - by rewrite (inv_appStateSubs s Hinv), Hs.
Qed.

Lemma exec_eq op s : Inv s → exec op s = Some (tt, step op s).
Proof.
  intros Hinv. destruct op as [props|entry|entry props|c| |scheme|]; simpl.
  - unfold mbind, M_bind. by rewrite pushStackEntry_eq.
  - by apply popStackEntry_eq.
  - unfold mbind, M_bind. by rewrite replaceStackEntry_eq.
  - done.
  - by apply runImmediates_eq.
  - unfold notified, appearanceListenerBody, topColor. unfold_prims. simpl.
    fold (@mbind M _ unit unit). unfold_prims.
    destruct (last (propsStack s)) as [top|] eqn:Htop.
    + assert (propsStack s ≠ []) as Hne by (intros Hnil; by rewrite Hnil in Htop).
      destruct (listeners_held s Hinv Hne) as (l & l' & _ & _ & -> & _).
      simpl. unfold_prims. simpl. by rewrite Htop.
    + apply last_None in Htop.
      by destruct (listeners_free s Hinv Htop) as (_ & _ & -> & _).
  - unfold notified, appStateListenerBody, topColor. unfold_prims. simpl.
    destruct (last (propsStack s)) as [top|] eqn:Htop.
    + assert (propsStack s ≠ []) as Hne by (intros Hnil; by rewrite Hnil in Htop).
      destruct (listeners_held s Hinv Hne) as (l & l' & _ & _ & _ & ->).
      simpl. unfold_prims. simpl. by rewrite Htop.
    + apply last_None in Htop.
      by destruct (listeners_free s Hinv Htop) as (_ & _ & _ & ->).
Qed.

(** ** Facts about the two stack updates *)

Section StackUpdates.
Implicit Types stack : list ref.

Lemma spliced_absent entry stack : entry ∉ stack → spliced entry stack = stack.
Proof. intros Hnotin. unfold spliced. by rewrite (proj2 (indexOf_None _ _) Hnotin). Qed.

Lemma spliced_present entry stack :
  entry ∈ stack →
  ∃ l1 l2, stack = l1 ++ entry :: l2 ∧ (entry ∉ l1) ∧ spliced entry stack = l1 ++ l2.
Proof.
  intros Hin. destruct (indexOf_is_Some _ _ Hin) as [i Hi].
  destruct (indexOf_Some _ _ _ Hi) as (l1 & l2 & -> & -> & Hnotin).
  exists l1, l2. split_and!; [done..|].
  unfold spliced. rewrite Hi. apply delete_middle.
Qed.

Lemma spliced_elem_of entry stack x : x ∈ spliced entry stack → x ∈ stack.
Proof.
  unfold spliced. destruct (indexOf stack entry); [|done].
  apply list_elem_of_delete_inv.
Qed.

Lemma spliced_NoDup entry stack : NoDup stack → NoDup (spliced entry stack).
Proof.
  unfold spliced. destruct (indexOf stack entry); [|done].
  intros Hnd. eapply sublist_NoDup; [done|]. apply sublist_delete.
Qed.

Lemma spliced_gone entry stack : NoDup stack → entry ∉ spliced entry stack.
Proof.
  intros Hnd. destruct (decide (entry ∈ stack)) as [Hin|Hnotin].
  - destruct (spliced_present _ _ Hin) as (l1 & l2 & -> & Hl1 & ->).
    apply NoDup_app in Hnd as (_ & Hdisj & Hnd2).
    apply NoDup_cons in Hnd2 as [Hl2 _].
    rewrite elem_of_app. tauto.
  - by rewrite spliced_absent.
Qed.

Lemma overwritten_absent entry newEntry stack :
  entry ∉ stack → overwritten entry newEntry stack = stack.
Proof. intros Hnotin. unfold overwritten. by rewrite (proj2 (indexOf_None _ _) Hnotin). Qed.

Lemma overwritten_present entry newEntry stack :
  entry ∈ stack →
  ∃ l1 l2, stack = l1 ++ entry :: l2 ∧ (entry ∉ l1)
           ∧ overwritten entry newEntry stack = l1 ++ newEntry :: l2.
Proof.
  intros Hin. destruct (indexOf_is_Some _ _ Hin) as [i Hi].
  destruct (indexOf_Some _ _ _ Hi) as (l1 & l2 & -> & -> & Hnotin).
  exists l1, l2. split_and!; [done..|].
  unfold overwritten. rewrite Hi.
  rewrite insert_app_r_alt by lia. by rewrite Nat.sub_diag.
Qed.

Lemma overwritten_length entry newEntry stack :
  length (overwritten entry newEntry stack) = length stack.
Proof.
  unfold overwritten. destruct (indexOf stack entry); [|done]. apply length_insert.
Qed.

Lemma overwritten_elem_of entry newEntry stack x :
  x ∈ overwritten entry newEntry stack → x = newEntry ∨ x ∈ stack.
Proof.
  destruct (decide (entry ∈ stack)) as [Hin|Hnotin].
  - destruct (overwritten_present _ newEntry _ Hin) as (l1 & l2 & -> & _ & ->).
    rewrite !elem_of_app, !elem_of_cons. tauto.
  - rewrite overwritten_absent by done. tauto.
Qed.

Lemma overwritten_NoDup entry newEntry stack :
  NoDup stack → newEntry ∉ stack → NoDup (overwritten entry newEntry stack).
Proof.
  intros Hnd Hnew. destruct (decide (entry ∈ stack)) as [Hin|Hnotin].
  - destruct (overwritten_present _ newEntry _ Hin) as (l1 & l2 & -> & _ & ->).
    revert Hnd Hnew. rewrite !NoDup_app, !NoDup_cons, !elem_of_app, !elem_of_cons.
    intros (Hnd1 & Hdisj & Hl2 & Hnd2) Hnew. split_and!; [done| |tauto|done].
    intros x Hx. rewrite elem_of_cons. intros [-> | Hx2]; [tauto|].
    apply (Hdisj x Hx). rewrite elem_of_cons. tauto.
  - by rewrite overwritten_absent.
Qed.

Lemma overwritten_gone entry newEntry stack :
  NoDup stack → entry ≠ newEntry → entry ∉ overwritten entry newEntry stack.
Proof.
  intros Hnd Hne. destruct (decide (entry ∈ stack)) as [Hin|Hnotin].
  - destruct (overwritten_present _ newEntry _ Hin) as (l1 & l2 & -> & Hl1 & ->).
    apply NoDup_app in Hnd as (_ & _ & Hnd2).
    apply NoDup_cons in Hnd2 as [Hl2 _].
    rewrite elem_of_app, elem_of_cons. tauto.
  - by rewrite overwritten_absent.
Qed.

End StackUpdates.

(** ** The invariant is preserved *)

Lemma init_Inv scheme : Inv (init scheme).
Proof.
  split; simpl; try done.
  - unfold defaultProps. lia.
  - intros r Hr. apply lookup_singleton_ne. unfold defaultProps. lia.
  - intros r Hr. by apply elem_of_nil in Hr.
  - apply NoDup_nil_2.
  - by left.
  - intros r Hr. by apply elem_of_nil in Hr.
Qed.

Lemma scheduled_Inv s :
  defaultProps < fresh s →
  (∀ r, fresh s ≤ r → heap s !! r = None) →
  (∀ r, r ∈ propsStack s → defaultProps < r ∧ r < fresh s) →
  NoDup (propsStack s) →
  appearanceSubs s = option_list (appearanceListener s) →
  appStateSubs s = option_list (appStateListener s) →
  (appearanceListener s = None ↔ propsStack s = []) →
  (appStateListener s = None ↔ propsStack s = []) →
  Inv (scheduled s).
Proof.
  intros Hd Hh Hst Hnd Has Hss Hal Hsl. split; simpl; try done.
  - lia.
  - intros r Hr. apply Hh. lia.
  - intros r Hr. apply Hst in Hr. lia.
  - by right.
  - intros i Hi. apply list_elem_of_singleton in Hi. lia.
Qed.

Lemma pushed_Inv props s : Inv s → Inv (pushed props s).
Proof.
  intros [Hd Hh Hst Hnd Has Hss Hal Hsl Him Hia]. unfold pushed.
  assert (∀ r, r ∈ propsStack s ++ [fresh s] → defaultProps < r ∧ r ≤ fresh s) as Hst'.
  { intros r [Hr | Hr%list_elem_of_singleton]%elem_of_app; [apply Hst in Hr|]; lia. }
  assert (NoDup (propsStack s ++ [fresh s])) as Hnd'.
  { apply NoDup_app. split_and!; [done| |apply NoDup_singleton].
    intros r Hr Hr'%list_elem_of_singleton. apply Hst in Hr. lia. }
  destruct (propsStack s) as [|x stack] eqn:Hstack; apply scheduled_Inv; simpl; try done.
  - lia.
  - intros r Hr. rewrite lookup_insert_ne by lia. apply Hh. lia.
  - intros r Hr. apply Hst' in Hr. lia.
  - lia.
  - intros r Hr. rewrite lookup_insert_ne by lia. apply Hh. lia.
  - intros r Hr. apply Hst' in Hr. lia.
  - split; [|done]. intros Ha. by pose proof (proj1 Hal Ha).
  - split; [|done]. intros Ha. by pose proof (proj1 Hsl Ha).
Qed.

Lemma popped_Inv entry s : Inv s → Inv (popped entry s).
Proof.
  intros Hinv. pose proof Hinv as [Hd Hh Hst Hnd Has Hss Hal Hsl Him Hia].
  unfold popped.
  assert (∀ r, r ∈ spliced entry (propsStack s) → defaultProps < r ∧ r < fresh s) as Hst'.
  { intros r Hr%spliced_elem_of. by apply Hst. }
  pose proof (spliced_NoDup entry _ Hnd) as Hnd'.
  destruct (spliced entry (propsStack s)) as [|x stack'] eqn:Hstack'.
  - destruct (appearanceListener s) as [l|] eqn:Ha.
    + destruct (appStateListener s) as [l'|] eqn:Hs.
      * by apply scheduled_Inv; simpl.
      * pose proof (proj1 Hsl eq_refl) as Hnil. by pose proof (proj2 Hal Hnil).
    + pose proof (proj1 Hal eq_refl) as Hnil. pose proof (proj2 Hsl Hnil) as Hs.
      apply scheduled_Inv; simpl; rewrite ?Ha, ?Hs; try done.
      by rewrite Hss, Hs.
  - assert (propsStack s ≠ []) as Hne.
    { intros Hnil. rewrite Hnil in Hstack'. done. }
    destruct (listeners_held s Hinv Hne) as (l & l' & Ha & Hs & _).
    apply scheduled_Inv; simpl; rewrite ?Hstack', ?Ha, ?Hs; try done.
    all: by rewrite ?Has, ?Hss, ?Ha, ?Hs.
Qed.

Lemma replaced_Inv entry props s : Inv s → Inv (replaced entry props s).
Proof.
  intros Hinv. pose proof Hinv as [Hd Hh Hst Hnd Has Hss Hal Hsl Him Hia].
  pose proof (Inv_fresh_notin s Hinv) as Hfresh.
  assert (overwritten entry (fresh s) (propsStack s) = [] ↔ propsStack s = []) as Hnil.
  { rewrite <- !length_zero_iff_nil. by rewrite overwritten_length. }
  unfold replaced. apply scheduled_Inv; simpl; try done.
  - lia.
  - intros r Hr. rewrite lookup_insert_ne by lia. apply Hh. lia.
  - intros r [-> | Hr%Hst]%overwritten_elem_of; lia.
  - by apply overwritten_NoDup.
  - by rewrite Hnil.
  - by rewrite Hnil.
Qed.

Lemma recomputed_Inv s : Inv s → Inv (recomputed s).
Proof.
  intros [Hd Hh Hst Hnd Has Hss Hal Hsl Him Hia]. unfold recomputed.
  destruct (truthy (mergedColor s)); split; simpl; try done; try lia.
  all: try (intros r Hr; rewrite lookup_insert_ne by lia; apply Hh; lia).
  all: try (intros r Hr; apply Hst in Hr; lia).
  all: intros i Hi; apply Hia in Hi; lia.
Qed.

Lemma notified_Inv scheme s : Inv s → Inv (notified scheme s).
Proof.
  intros Hinv. unfold notified. destruct (last (propsStack s)); [|done].
  by destruct Hinv.
Qed.

Lemma step_Inv op s : Inv s → Inv (step op s).
Proof.
  intros Hinv. destruct op as [props|entry|entry props|c| |scheme|]; simpl.
  - by apply pushed_Inv.
  - by apply popped_Inv.
  - by apply replaced_Inv.
  - destruct Hinv as [Hd Hh Hst Hnd Has Hss Hal Hsl Him Hia]. split; simpl; try done.
    intros r Hr. rewrite lookup_insert_ne by lia. by apply Hh.
  - destruct (immediates s) eqn:Hq; [done|].
    apply recomputed_Inv. destruct Hinv as [Hd Hh Hst Hnd Has Hss Hal Hsl Him Hia].
    split; simpl; try done; [by left|].
    intros i Hi. by apply elem_of_nil in Hi.
  - apply notified_Inv. by destruct Hinv.
  - by apply notified_Inv.
Qed.

Lemma steps_Inv ops s : Inv s → Inv (steps ops s).
Proof.
  revert s. induction ops as [|op ops IH]; intros s Hinv; [done|].
  simpl. apply IH. by apply step_Inv.
Qed.

Lemma steps_app ops1 ops2 s : steps (ops1 ++ ops2) s = steps ops2 (steps ops1 s).
Proof. apply foldl_app. Qed.

Lemma run_eq ops s : Inv s → run ops s = Some (steps ops s).
Proof.
  revert s. induction ops as [|op ops IH]; intros s Hinv; [done|].
  simpl. rewrite exec_eq by done. apply IH. by apply step_Inv.
Qed.

Lemma reachable_steps s :
  reachable s ↔ ∃ scheme ops, s = steps ops (init scheme).
Proof.
  unfold reachable. split; intros (scheme & ops & Hrun); exists scheme, ops.
  - rewrite run_eq in Hrun by apply init_Inv. congruence.
  - rewrite run_eq by apply init_Inv. congruence.
Qed.

Lemma reachable_Inv s : reachable s → Inv s.
Proof.
  intros (scheme & ops & ->)%reachable_steps. apply steps_Inv, init_Inv.
Qed.

Lemma reachable_step op s : reachable s → reachable (step op s).
Proof.
  intros (scheme & ops & ->)%reachable_steps. apply reachable_steps.
  exists scheme, (ops ++ [op]). by rewrite steps_app.
Qed.

Lemma reachable_run_steps ops s : reachable s → reachable (steps ops s).
Proof.
  intros (scheme & ops0 & ->)%reachable_steps. apply reachable_steps.
  exists scheme, (ops0 ++ ops). by rewrite steps_app.
Qed.

(** ** How a step moves the stack, the counter and the heap *)

Lemma step_propsStack op s x :
  x ∈ propsStack (step op s) → x ∈ propsStack s ∨ x = fresh s.
Proof.
  destruct op as [props|entry|entry props|c| |scheme|]; simpl.
  - unfold pushed. destruct (propsStack s) as [|y stack]; simpl.
    + intros ->%list_elem_of_singleton. by right.
    + rewrite elem_of_cons, elem_of_app, list_elem_of_singleton, elem_of_cons. tauto.
  - unfold popped.
    destruct (spliced entry (propsStack s)) as [|y stack'] eqn:Hstack';
      [destruct (appearanceListener s); [destruct (appStateListener s)|]|];
      simpl; rewrite ?Hstack'; try (by intros ?%elem_of_nil).
    rewrite <- Hstack'. intros Hx%spliced_elem_of. by left.
  - intros [-> | Hx]%overwritten_elem_of; tauto.
  - tauto.
  - destruct (immediates s); [tauto|].
    unfold recomputed. destruct (truthy _); simpl; tauto.
  - unfold notified. destruct (last _); simpl; tauto.
  - unfold notified. destruct (last _); simpl; tauto.
Qed.

Lemma step_fresh op s : fresh s ≤ fresh (step op s).
Proof.
  destruct op as [props|entry|entry props|c| |scheme|]; simpl.
  - unfold pushed. destruct (propsStack s); simpl; lia.
  - unfold popped.
    destruct (spliced entry (propsStack s));
      [destruct (appearanceListener s); [destruct (appStateListener s)|]|];
      simpl; lia.
  - lia.
  - lia.
  - destruct (immediates s); [lia|].
    unfold recomputed. destruct (truthy _); simpl; lia.
  - unfold notified. destruct (last _); simpl; lia.
  - unfold notified. destruct (last _); simpl; lia.
Qed.

Lemma step_heap op s r :
  r < fresh s →
  isSetColor op = false ∨ r ≠ defaultProps →
  heap (step op s) !! r = heap s !! r.
Proof.
  intros Hr Hset.
  destruct op as [props|entry|entry props|c| |scheme|]; simpl.
  - unfold pushed. destruct (propsStack s); simpl; by rewrite lookup_insert_ne by lia.
  - unfold popped.
    by destruct (spliced entry (propsStack s));
      [destruct (appearanceListener s); [destruct (appStateListener s)|]|].
  - by rewrite lookup_insert_ne by lia.
  - destruct Hset as [Hset | Hne]; [done|]. by rewrite lookup_insert_ne.
  - destruct (immediates s); [done|].
    unfold recomputed. destruct (truthy _); simpl; by rewrite lookup_insert_ne by lia.
  - unfold notified. by destruct (last _).
  - unfold notified. by destruct (last _).
Qed.

(** A reference that exists and is not on the stack never gets onto it. *)
Lemma steps_absent ops s r :
  r < fresh s → r ∉ propsStack s →
  r < fresh (steps ops s) ∧ r ∉ propsStack (steps ops s).
Proof.
  revert s. induction ops as [|op ops IH]; intros s Hr Hnotin; [done|].
  simpl. apply IH.
  - pose proof (step_fresh op s). lia.
  - intros [Hin | ->]%step_propsStack; [done|lia].
Qed.

(** Without any assumption on the state: when [indexOf] finds nothing,
    none of the branches of [popStackEntry] touches the stack. *)
Lemma popStackEntry_absent (entry : ref) (s : State) :
  entry ∉ propsStack s →
  ∃ s', popStackEntry entry s = Some (tt, s') ∧ propsStack s' = propsStack s.
Proof.
  intros Hnotin%indexOf_None.
  unfold popStackEntry, _updatePropsStack. unfold_prims. rewrite Hnotin. simpl.
  repeat case_match; simplify_eq/=; eauto.
Qed.

(** * Properties *)

(** ** Resolving a color against the theme *)

(** C5, as stated, fails: for an object without a [dark] key
    [isThemedColor] is false, so in the dark theme the object itself, not
    ['#000'], is handed to the color setter. *)
Lemma resolve_dark_without_dark_key :
  resolve SchemeDark lightOnly = lightOnly
  ∧ resolve SchemeDark lightOnly ≠ JsString "#000".
Proof. split; [reflexivity|discriminate]. Qed.

(** C5, amended: an object that has both a [light] and a [dark] key resolves
    to its [dark] value in the dark theme and to its [light] value in any
    other theme, with ['#000'] and ['#fff'] standing in for a value that is
    [null] or [undefined]; every other object and every string, the empty
    one included, is passed on unchanged; [null] and [undefined] become
    ['#fff']. *)
Theorem resolve_cases (scheme : ColorSchemeName) (c : JsValue) :
  resolve scheme c =
    match c with
    | JsObject fields =>
        if hasProperty "light" c && hasProperty "dark" c then
          match scheme with
          | SchemeDark => lookupField "dark" fields ?? JsString "#000"
          | SchemeLight | SchemeNone => lookupField "light" fields ?? JsString "#fff"
          end
        else c
    | JsString _ => c
    | JsUndefined | JsNull => JsString "#fff"
    end
  ∧ resolve SchemeDark themedPair = JsString "#000"
  ∧ resolve SchemeLight themedPair = JsString "#fff"
  ∧ resolve SchemeDark darkUndefined = JsString "#000"
  ∧ resolve SchemeDark lightOnly = lightOnly
  ∧ resolve scheme (JsString "") = JsString "".
Proof.
  split_and!; try reflexivity.
  unfold resolve, isThemedColor.
  destruct c as [| |str|fields]; simpl; try done.
  - by destruct (negb _).
  - destruct (existsb _ fields && existsb _ fields); [|done].
    by destruct scheme.
Qed.

(** ** Operations on handles that are not on the stack *)

(** C6: popping a handle that is not on the stack returns normally and
    leaves the stack as it was, in any state whatsoever. *)
Theorem pop_absent_keeps_stack (entry : ref) (s : State) :
  entry ∉ propsStack s →
  ∃ s', popStackEntry entry s = Some (tt, s') ∧ propsStack s' = propsStack s.
Proof. apply popStackEntry_absent. Qed.

Lemma pop_absent_keeps_stack_witness :
  (7 ∉ propsStack (steps [Push (mkProps themedPair)] (init SchemeLight)))
  ∧ ∃ s', popStackEntry 7 (steps [Push (mkProps themedPair)] (init SchemeLight))
          = Some (tt, s')
          ∧ propsStack s' = propsStack (steps [Push (mkProps themedPair)] (init SchemeLight)).
Proof.
  assert (7 ∉ propsStack (steps [Push (mkProps themedPair)] (init SchemeLight))) as H.
  { vm_compute. intros Hin%list_elem_of_singleton. lia. }
  split; [exact H|]. exact (pop_absent_keeps_stack 7 _ H).
Defined.

(** ** Setting the default color *)

(** C10: [setColor] overwrites the color of [defaultProps] and hands the
    new color, resolved against the current theme, to the color setter
    at once, whatever is on the stack; the pending immediate and
    [updateImmediate] are left alone. *)
Theorem setColor_applies_at_once (c : JsValue) (s : State) :
  ∃ s', setColor c s = Some (tt, s')
        ∧ heap s' !! defaultProps = Some (mkProps c)
        ∧ colorCalls s' = colorCalls s ++ [resolve (colorScheme s) c]
        ∧ immediates s' = immediates s
        ∧ updateImmediate s' = updateImmediate s
        ∧ propsStack s' = propsStack s.
Proof.
  exists (colorSet c s). split_and!; try done.
  simpl. apply lookup_insert_eq.
Qed.

(** With an entry on the stack the color applied by [setColor] is not the
    effective one. *)
Example setColor_under_a_stacked_entry :
  ∃ s s',
    run [Push (mkProps (JsString "#fff000")); RunImmediates] (init SchemeLight) = Some s
    ∧ exec (SetColor (JsString "#123456")) s = Some (tt, s')
    ∧ effectiveColor s' = JsString "#fff000"
    ∧ colorCalls s' = [JsString "#fff000"; JsString "#123456"].
Proof.
  exists (steps [Push (mkProps (JsString "#fff000")); RunImmediates] (init SchemeLight)),
    (steps [Push (mkProps (JsString "#fff000")); RunImmediates;
            SetColor (JsString "#123456")] (init SchemeLight)).
  split_and!; vm_compute; reflexivity.
Qed.

(** C3: replacing a handle that is not on the stack leaves the stack as it
    was and returns a new object that is not on the stack either; whatever
    happens afterwards, popping or replacing that new handle leaves the
    stack as it is. *)
Theorem replace_absent_is_disconnected (entry : ref) (props : Props) (s : State) :
  reachable s →
  entry ∉ propsStack s →
  ∃ newEntry s',
    replaceStackEntry entry props s = Some (newEntry, s')
    ∧ propsStack s' = propsStack s
    ∧ heap s !! newEntry = None
    ∧ heap s' !! newEntry = Some (mkProps (color props))
    ∧ ∀ ops s2, run ops s' = Some s2 →
        (newEntry ∉ propsStack s2)
        ∧ (∃ s3, popStackEntry newEntry s2 = Some (tt, s3)
                 ∧ propsStack s3 = propsStack s2)
        ∧ (∀ props', ∃ newEntry' s3,
              replaceStackEntry newEntry props' s2 = Some (newEntry', s3)
              ∧ propsStack s3 = propsStack s2).
Proof.
  intros Hreach Hnotin. pose proof (reachable_Inv s Hreach) as Hinv.
  pose proof (replaced_Inv entry props s Hinv) as Hinv'.
  exists (fresh s), (replaced entry props s).
  assert (propsStack (replaced entry props s) = propsStack s) as Hstack.
  { simpl. by apply overwritten_absent. }
  split_and!.
  - by apply replaceStackEntry_eq.
  - done.
  - by apply (inv_heap s Hinv).
  - simpl. apply lookup_insert_eq.
  - intros ops s2 Hrun. rewrite run_eq in Hrun by done. injection Hrun as <-.
    pose proof (steps_Inv ops _ Hinv') as Hinv2.
    destruct (steps_absent ops (replaced entry props s) (fresh s)) as [_ Habsent].
    { simpl. lia. }
    { rewrite Hstack. by apply Inv_fresh_notin. }
    split_and!.
    + done.
    + by apply popStackEntry_absent.
    + intros props'. eexists _, _. split; [by apply replaceStackEntry_eq|].
      simpl. by apply overwritten_absent.
Qed.

Lemma replace_absent_is_disconnected_witness :
  reachable (steps [Push (mkProps themedPair); Pop 1] (init SchemeDark))
  ∧ (1 ∉ propsStack (steps [Push (mkProps themedPair); Pop 1] (init SchemeDark)))
  ∧ ∃ newEntry s',
      replaceStackEntry 1 (mkProps (JsString "#fff000"))
        (steps [Push (mkProps themedPair); Pop 1] (init SchemeDark))
      = Some (newEntry, s')
      ∧ propsStack s' = [].
Proof.
  assert (reachable (steps [Push (mkProps themedPair); Pop 1] (init SchemeDark))) as Hreach.
  { exists SchemeDark, [Push (mkProps themedPair); Pop 1]. reflexivity. }
  assert (1 ∉ propsStack (steps [Push (mkProps themedPair); Pop 1] (init SchemeDark))) as Habsent.
  { vm_compute. apply not_elem_of_nil. }
  split_and!; [done..|].
  destruct (replace_absent_is_disconnected 1 (mkProps (JsString "#fff000")) _ Hreach Habsent)
    as (newEntry & s' & Hrun & Hstack & _).
  exists newEntry, s'. split; [exact Hrun|]. rewrite Hstack. reflexivity.
Defined.

(** ** The listeners *)

(** C4: in every reachable state the listeners are held exactly when the
    stack is non-empty, and what is registered with [Appearance] and
    [AppState] is exactly what is held, so at most one pair; a push
    registers one new pair when the stack was empty and nothing otherwise;
    a pop removes the pair when it takes the last entry off the stack and
    nothing otherwise. *)
Theorem listeners_follow_stack (s : State) :
  reachable s →
  (appearanceListener s = None ↔ propsStack s = [])
  ∧ (appStateListener s = None ↔ propsStack s = [])
  ∧ appearanceSubs s = option_list (appearanceListener s)
  ∧ appStateSubs s = option_list (appStateListener s)
  ∧ length (appearanceSubs s) ≤ 1
  ∧ length (appStateSubs s) ≤ 1
  ∧ (∀ props, ∃ entry s',
        pushStackEntry props s = Some (entry, s')
        ∧ match propsStack s with
          | [] => ∃ l l',
              listenerCalls s' =
                listenerCalls s ++ [AddChangeListener l; AddEventListener l']
              ∧ appearanceListener s' = Some l
              ∧ appStateListener s' = Some l'
          | _ :: _ =>
              listenerCalls s' = listenerCalls s
              ∧ appearanceListener s' = appearanceListener s
              ∧ appStateListener s' = appStateListener s
          end)
  ∧ (∀ entry, ∃ s',
        popStackEntry entry s = Some (tt, s')
        ∧ match propsStack s, propsStack s' with
          | _ :: _, [] => ∃ l l',
              appearanceListener s = Some l
              ∧ appStateListener s = Some l'
              ∧ listenerCalls s' =
                  listenerCalls s ++ [RemoveChangeListener l; RemoveEventListener l']
              ∧ appearanceListener s' = None
              ∧ appStateListener s' = None
          | _, _ =>
              listenerCalls s' = listenerCalls s
              ∧ appearanceListener s' = appearanceListener s
              ∧ appStateListener s' = appStateListener s
          end).
Proof.
  intros Hreach. pose proof (reachable_Inv s Hreach) as Hinv.
  pose proof Hinv as [Hd Hh Hst Hnd Has Hss Hal Hsl Him Hia].
  split_and!; try done.
  - rewrite Has. destruct (appearanceListener s); simpl; lia.
  - rewrite Hss. destruct (appStateListener s); simpl; lia.
  - intros props. exists (fresh s), (pushed props s).
    split; [by apply pushStackEntry_eq|].
    unfold pushed. destruct (propsStack s); simpl; [|done].
    by exists (S (fresh s)), (S (S (fresh s))).
  - intros entry. exists (popped entry s).
    split; [by apply popStackEntry_eq|].
    unfold popped.
    destruct (propsStack s) as [|x stack] eqn:Hstack.
    + destruct (listeners_free s Hinv Hstack) as (Ha & Hs & _).
      rewrite Ha, Hs. unfold spliced. simpl. done.
    + assert (propsStack s ≠ []) as Hne by (by rewrite Hstack).
      destruct (listeners_held s Hinv Hne) as (l & l' & Ha & Hs & _).
      rewrite Ha, Hs.
      destruct (spliced entry (x :: stack)) as [|y stack'] eqn:Hstack'; simpl.
      * by exists l, l'.
      * done.
Qed.

Lemma listeners_follow_stack_witness :
  reachable (steps [Push (mkProps themedPair)] (init SchemeLight))
  ∧ length (appearanceSubs (steps [Push (mkProps themedPair)] (init SchemeLight))) ≤ 1
  ∧ length (appStateSubs (steps [Push (mkProps themedPair)] (init SchemeLight))) ≤ 1.
Proof.
  assert (reachable (steps [Push (mkProps themedPair)] (init SchemeLight))) as Hreach.
  { exists SchemeLight, [Push (mkProps themedPair)]. reflexivity. }
  split; [exact Hreach|].
  destruct (listeners_follow_stack _ Hreach) as (_ & _ & _ & _ & Ha & Hs & _).
  split; [exact Ha|exact Hs].
Defined.

(** C8: while a listener is held the stack is non-empty, so the read of
    its last element succeeds, and a theme change or an app-state change
    hands the color of the last entry, resolved against the theme (the one
    notified, or the current one), to the color setter right away, without
    touching the pending immediate. *)
Theorem notification_applies_top (s : State) :
  reachable s →
  is_Some (appearanceListener s) ∨ is_Some (appStateListener s) →
  ∃ top,
    last (propsStack s) = Some top
    ∧ propsStack s !! (length (propsStack s) - 1) = Some top
    ∧ (∀ scheme, ∃ s',
          exec (AppearanceChange scheme) s = Some (tt, s')
          ∧ colorCalls s' = colorCalls s ++ [resolve scheme (colorOf (heap s) top)]
          ∧ colorScheme s' = scheme
          ∧ immediates s' = immediates s
          ∧ updateImmediate s' = updateImmediate s)
    ∧ (∃ s',
          exec AppStateChange s = Some (tt, s')
          ∧ colorCalls s' =
              colorCalls s ++ [resolve (colorScheme s) (colorOf (heap s) top)]
          ∧ immediates s' = immediates s
          ∧ updateImmediate s' = updateImmediate s).
Proof.
  intros Hreach Hheld. pose proof (reachable_Inv s Hreach) as Hinv.
  assert (propsStack s ≠ []) as Hne.
  { intros Hnil. destruct (listeners_free s Hinv Hnil) as (Ha & Hs & _).
    rewrite Ha, Hs in Hheld. destruct Hheld as [[? ?] | [? ?]]; done. }
  destruct (last (propsStack s)) as [top|] eqn:Htop; [|by apply last_None in Htop].
  exists top. split_and!.
  - done.
  - rewrite <- Htop, last_lookup. f_equal. lia.
  - intros scheme. eexists. split; [by apply exec_eq|].
    simpl. unfold notified. simpl. rewrite Htop. done.
  - eexists. split; [by apply exec_eq|].
    simpl. unfold notified. rewrite Htop. done.
Qed.

Lemma notification_applies_top_witness :
  reachable (steps [Push (mkProps themedPair)] (init SchemeLight))
  ∧ (is_Some (appearanceListener (steps [Push (mkProps themedPair)] (init SchemeLight)))
     ∨ is_Some (appStateListener (steps [Push (mkProps themedPair)] (init SchemeLight))))
  ∧ ∃ top, last (propsStack (steps [Push (mkProps themedPair)] (init SchemeLight))) = Some top.
Proof.
  assert (reachable (steps [Push (mkProps themedPair)] (init SchemeLight))) as Hreach.
  { exists SchemeLight, [Push (mkProps themedPair)]. reflexivity. }
  assert (is_Some (appearanceListener (steps [Push (mkProps themedPair)] (init SchemeLight)))
     ∨ is_Some (appStateListener (steps [Push (mkProps themedPair)] (init SchemeLight))))
    as Hheld.
  { left. exists 2. reflexivity. }
  split_and!; [exact Hreach|exact Hheld|].
  destruct (notification_applies_top _ Hreach Hheld) as (top & Htop & _).
  exists top. exact Htop.
Defined.

(** ** The default entry *)

(** C9: no push, pop, replace, run of the deferred recompute or
    notification changes [defaultProps]; [mergePropsStack] writes into a
    copy, an object that did not exist before; [setColor] does change
    it. *)
Theorem default_entry_is_not_mutated (s : State) :
  reachable s →
  (∀ op, isSetColor op = false →
     ∃ s', exec op s = Some (tt, s')
           ∧ heap s' !! defaultProps = heap s !! defaultProps)
  ∧ (∃ merged s',
       mergePropsStack (propsStack s) defaultProps s = Some (merged, s')
       ∧ merged ≠ defaultProps
       ∧ heap s !! merged = None
       ∧ heap s' !! defaultProps = heap s !! defaultProps
       ∧ colorOf (heap s') merged = effectiveColor s)
  ∧ (∀ c, ∃ s', exec (SetColor c) s = Some (tt, s')
                ∧ heap s' !! defaultProps = Some (mkProps c)).
Proof.
  intros Hreach. pose proof (reachable_Inv s Hreach) as Hinv.
  pose proof (Inv_fresh_notin s Hinv) as Hfresh.
  pose proof (inv_default s Hinv) as Hd.
  split_and!.
  - intros op Hop. exists (step op s). split; [by apply exec_eq|].
    apply step_heap; [done|by left].
  - eexists _, _. split; [by apply mergePropsStack_eq|]. split_and!.
    + lia.
    + by apply (inv_heap s Hinv).
    + simpl. apply lookup_insert_ne. lia.
    + simpl. rewrite colorOf_insert_eq, effectiveColor_eq by done. done.
  - intros c. exists (colorSet c s). split; [done|]. simpl. apply lookup_insert_eq.
Qed.

Lemma default_entry_is_not_mutated_witness :
  reachable (steps [Push (mkProps themedPair); RunImmediates] (init SchemeLight))
  ∧ ∃ s', exec (Pop 1) (steps [Push (mkProps themedPair); RunImmediates] (init SchemeLight))
          = Some (tt, s')
          ∧ heap s' !! defaultProps = Some (mkProps (JsString "#fff")).
Proof.
  assert (reachable (steps [Push (mkProps themedPair); RunImmediates] (init SchemeLight)))
    as Hreach.
  { exists SchemeLight, [Push (mkProps themedPair); RunImmediates]. reflexivity. }
  split; [exact Hreach|].
  destruct (default_entry_is_not_mutated _ Hreach) as (Hframe & _).
  destruct (Hframe (Pop 1) eq_refl) as (s' & Hexec & Hdefault).
  exists s'. split; [exact Hexec|]. rewrite Hdefault. reflexivity.
Defined.

(** ** The effective color *)

(** What [mergeColors] computes: the last color that is neither [null] nor
    [undefined], or the starting color when there is none. *)
Lemma mergeColors_snoc acc cs c :
  mergeColors acc (cs ++ [c]) = if isNullish c then mergeColors acc cs else c.
Proof. unfold mergeColors. by rewrite foldl_app. Qed.

Lemma mergeColors_last acc cs :
  Forall (λ c, isNullish c = false) cs →
  mergeColors acc cs = default acc (last cs).
Proof.
  destruct cs as [|c cs _] using rev_ind; [done|].
  intros Hcs. apply Forall_app in Hcs as [_ Hc]. apply Forall_cons in Hc as [Hc _].
  by rewrite mergeColors_snoc, Hc, last_snoc.
Qed.

(** In general the last color that is there wins. *)
Lemma mergeColors_topmost acc cs :
  mergeColors acc cs = default acc (last (filter (λ c, isNullish c = false) cs)).
Proof.
  induction cs as [|c cs IH] using rev_ind; [done|].
  rewrite mergeColors_snoc, filter_app, filter_cons, filter_nil.
  destruct (isNullish c) eqn:Hc.
  - rewrite decide_False by done. by rewrite app_nil_r.
  - rewrite decide_True by done. by rewrite last_snoc.
Qed.

Lemma last_map {A B : Type} (f : A → B) (l : list A) : last (map f l) = f <$> last l.
Proof.
  destruct l as [|x l _] using rev_ind; [done|].
  rewrite map_app. simpl. by rewrite !last_snoc.
Qed.

Lemma popped_propsStack entry s :
  propsStack (popped entry s) = spliced entry (propsStack s).
Proof.
  unfold popped.
  destruct (spliced entry (propsStack s)) as [|x stack'] eqn:Hstack';
    [destruct (appearanceListener s); [destruct (appStateListener s)|]|];
    simpl; by rewrite ?Hstack'.
Qed.

Lemma step_entry_color op s r :
  Inv s → r ∈ propsStack s → colorOf (heap (step op s)) r = colorOf (heap s) r.
Proof.
  intros Hinv Hr. apply (inv_stack s Hinv) in Hr.
  unfold colorOf. rewrite step_heap; [done|lia|right; lia].
Qed.

Lemma step_stackGiven op s :
  Inv s → requestGiven op = true → stackGiven s → stackGiven (step op s).
Proof.
  intros Hinv Hop Hgiven r Hr.
  destruct (decide (r ∈ propsStack s)) as [Hin|Hnotin].
  { rewrite step_entry_color by done. by apply Hgiven. }
  destruct op as [props|entry|entry props|c| |scheme|]; simpl in *.
  - apply negb_true_iff in Hop.
    unfold pushed in *. destruct (propsStack s) as [|x stack]; simpl in *.
    + apply list_elem_of_singleton in Hr as ->. by rewrite colorOf_insert_eq.
    + rewrite app_comm_cons in Hr.
      apply elem_of_app in Hr as [Hr | Hr%list_elem_of_singleton]; [done|].
      subst r. by rewrite colorOf_insert_eq.
  - rewrite popped_propsStack in Hr. by apply spliced_elem_of in Hr.
  - apply negb_true_iff in Hop.
    apply overwritten_elem_of in Hr as [-> | Hr]; [|done].
    by rewrite colorOf_insert_eq.
  - done.
  - destruct (immediates s); [done|].
    unfold recomputed in Hr. by destruct (truthy _).
  - unfold notified in Hr. by destruct (last _).
  - unfold notified in Hr. by destruct (last _).
Qed.

Lemma steps_stackGiven ops s :
  Inv s → Forall (λ op, requestGiven op = true) ops →
  stackGiven s → stackGiven (steps ops s).
Proof.
  revert s. induction ops as [|op ops IH]; intros s Hinv Hops Hgiven; [done|].
  apply Forall_cons in Hops as [Hop Hops].
  simpl. apply IH; [by apply step_Inv|done|by apply step_stackGiven].
Qed.

Lemma effectiveColor_top s :
  Inv s → stackGiven s →
  effectiveColor s =
    match last (propsStack s) with
    | Some top => colorOf (heap s) top
    | None => colorOf (heap s) defaultProps
    end.
Proof.
  intros Hinv Hgiven. rewrite effectiveColor_eq by (by apply Inv_fresh_notin).
  unfold mergedColor. rewrite mergeColors_last.
  - rewrite last_map. by destruct (last (propsStack s)).
  - apply Forall_forall. intros c (r & -> & Hr)%list_elem_of_fmap. by apply Hgiven.
Qed.

Lemma effectiveColor_topmost s :
  Inv s →
  effectiveColor s =
    default (colorOf (heap s) defaultProps)
      (last (filter (λ c, isNullish c = false) (map (colorOf (heap s)) (propsStack s)))).
Proof.
  intros Hinv. rewrite effectiveColor_eq by (by apply Inv_fresh_notin).
  apply mergeColors_topmost.
Qed.

(** C1: after any sequence of operations whose requests carry a color,
    the color the deferred recompute reads off the merged object is the
    color of the last stack entry, or that of [defaultProps] when the
    stack is empty; and the last entry is the one pushed most recently:
    a further push puts its entry last and makes its request the
    effective color. *)
Theorem effectiveColor_is_top_of_stack
    (scheme : ColorSchemeName) (ops : list Op) (s : State) :
  Forall (λ op, requestGiven op = true) ops →
  run ops (init scheme) = Some s →
  effectiveColor s =
    match last (propsStack s) with
    | Some top => colorOf (heap s) top
    | None => colorOf (heap s) defaultProps
    end
  ∧ ∀ props, isNullish (color props) = false →
      ∃ entry s',
        pushStackEntry props s = Some (entry, s')
        ∧ propsStack s' = propsStack s ++ [entry]
        ∧ colorOf (heap s') entry = color props
        ∧ effectiveColor s' = color props.
Proof.
  intros Hops Hrun. rewrite run_eq in Hrun by apply init_Inv. injection Hrun as <-.
  pose proof (steps_Inv ops _ (init_Inv scheme)) as Hinv.
  assert (stackGiven (steps ops (init scheme))) as Hgiven.
  { apply steps_stackGiven; [apply init_Inv|done|].
    intros r Hr. by apply elem_of_nil in Hr. }
  split; [by apply effectiveColor_top|].
  intros props Hprops. set (s := steps ops (init scheme)) in *.
  exists (fresh s), (pushed props s).
  assert (propsStack (pushed props s) = propsStack s ++ [fresh s]) as Hstack.
  { unfold pushed. by destruct (propsStack s). }
  assert (colorOf (heap (pushed props s)) (fresh s) = color props) as Hcolor.
  { unfold pushed. destruct (propsStack s); simpl; by rewrite colorOf_insert_eq. }
  split_and!; [by apply pushStackEntry_eq|done..|].
  rewrite effectiveColor_top.
  - by rewrite Hstack, last_snoc.
  - by apply pushed_Inv.
  - apply (step_stackGiven (Push props)); [done| |done].
    simpl. by rewrite Hprops.
Qed.

Lemma effectiveColor_is_top_of_stack_witness :
  Forall (λ op, requestGiven op = true)
    [Push (mkProps themedPair); Push (mkProps (JsString "#fff000")); Pop 5]
  ∧ run [Push (mkProps themedPair); Push (mkProps (JsString "#fff000")); Pop 5]
        (init SchemeDark)
    = Some (steps [Push (mkProps themedPair); Push (mkProps (JsString "#fff000")); Pop 5]
              (init SchemeDark))
  ∧ effectiveColor
      (steps [Push (mkProps themedPair); Push (mkProps (JsString "#fff000")); Pop 5]
         (init SchemeDark))
    = themedPair.
Proof.
  assert (Forall (λ op, requestGiven op = true)
            [Push (mkProps themedPair); Push (mkProps (JsString "#fff000")); Pop 5])
    as Hops.
  { repeat constructor. }
  assert (run [Push (mkProps themedPair); Push (mkProps (JsString "#fff000")); Pop 5]
            (init SchemeDark)
          = Some (steps [Push (mkProps themedPair); Push (mkProps (JsString "#fff000")); Pop 5]
                    (init SchemeDark))) as Hrun.
  { vm_compute. reflexivity. }
  split_and!; [exact Hops|exact Hrun|].
  destruct (effectiveColor_is_top_of_stack SchemeDark _ _ Hops Hrun) as [Htop _].
  rewrite Htop. vm_compute. reflexivity.
Defined.

(** ** Coalescing *)

Lemma recomputed_colorCalls s :
  colorCalls (recomputed s) =
    colorCalls s ++
      (if truthy (mergedColor s) then [resolve (colorScheme s) (mergedColor s)] else []).
Proof.
  unfold recomputed. destruct (truthy (mergedColor s)); simpl; [done|].
  by rewrite app_nil_r.
Qed.

(** What a mutation leaves behind: exactly one pending immediate, newly
    created, and no call to the color setter. *)
Lemma mutation_schedules op s :
  isMutation op = true →
  immediates (step op s) = option_list (updateImmediate (step op s))
  ∧ (∃ h, updateImmediate (step op s) = Some h ∧ fresh s ≤ h)
  ∧ colorCalls (step op s) = colorCalls s
  ∧ colorScheme (step op s) = colorScheme s.
Proof.
  destruct op as [props|entry|entry props|c| |scheme|]; simpl; try done; intros _.
  - unfold pushed. destruct (propsStack s); simpl; split_and!; try done.
    + exists (S (S (S (fresh s)))). split; [done|lia].
    + exists (S (fresh s)). split; [done|lia].
  - unfold popped.
    destruct (spliced entry (propsStack s));
      [destruct (appearanceListener s); [destruct (appStateListener s)|]|];
      simpl; split_and!; try done; by exists (fresh s).
  - split_and!; try done. exists (S (fresh s)). split; [done|lia].
Qed.

Lemma mutations_colorCalls ops s :
  Forall (λ op, isMutation op = true) ops →
  colorCalls (steps ops s) = colorCalls s
  ∧ colorScheme (steps ops s) = colorScheme s
  ∧ fresh s ≤ fresh (steps ops s).
Proof.
  revert s. induction ops as [|op ops IH]; intros s Hops; [done|].
  apply Forall_cons in Hops as [Hop Hops]. simpl.
  destruct (IH (step op s) Hops) as (-> & -> & Hfresh).
  destruct (mutation_schedules op s Hop) as (_ & _ & -> & ->).
  pose proof (step_fresh op s). split_and!; [done..|lia].
Qed.

(** C2, as stated, fails: the deferred recompute calls the color setter
    only [if (color)], so a burst that leaves the empty string as the
    merged color produces no call at all. *)
Lemma burst_leaving_empty_string_sets_nothing :
  ∃ s1 s2,
    run [Push (mkProps (JsString ""))] (init SchemeLight) = Some s1
    ∧ exec RunImmediates s1 = Some (tt, s2)
    ∧ effectiveColor s1 = JsString ""
    ∧ colorCalls s2 = []
    ∧ colorCalls s2 ≠
        colorCalls (init SchemeLight)
          ++ [resolve (colorScheme s1) (effectiveColor s1)].
Proof.
  exists (steps [Push (mkProps (JsString ""))] (init SchemeLight)),
    (steps [Push (mkProps (JsString "")); RunImmediates] (init SchemeLight)).
  split_and!; [vm_compute; reflexivity..|].
  vm_compute. discriminate.
Qed.

(** C2, amended: a burst of one or more mutations makes no call to the
    color setter itself and leaves exactly one immediate pending, created
    by the last mutation, everything pending before the burst being
    cancelled; when that immediate runs, the color setter is called once,
    with the merged color of the stack as the burst left it resolved
    against the current theme, if that color is truthy, and not at all
    otherwise. *)
Theorem burst_is_coalesced (s : State) (ops : list Op) :
  reachable s →
  ops ≠ [] →
  Forall (λ op, isMutation op = true) ops →
  ∃ s1 h s2,
    run ops s = Some s1
    ∧ immediates s1 = [h]
    ∧ updateImmediate s1 = Some h
    ∧ (h ∉ immediates s)
    ∧ colorCalls s1 = colorCalls s
    ∧ exec RunImmediates s1 = Some (tt, s2)
    ∧ immediates s2 = []
    ∧ colorCalls s2 =
        colorCalls s ++
          (if truthy (effectiveColor s1)
           then [resolve (colorScheme s1) (effectiveColor s1)]
           else []).
Proof.
  intros Hreach Hne Hops. pose proof (reachable_Inv s Hreach) as Hinv.
  pose proof (steps_Inv ops s Hinv) as Hinv1.
  destruct (mutations_colorCalls ops s Hops) as (Hcalls & _ & _).
  destruct ops as [|op ops _] using rev_ind; [done|].
  apply Forall_app in Hops as [Hops Hop]. apply Forall_cons in Hop as [Hop _].
  rewrite steps_app in *. simpl in *.
  set (s0 := steps ops s) in *.
  destruct (mutation_schedules op s0 Hop) as (Hq & (h & Hh & Hfresh) & _ & _).
  rewrite Hh in Hq. simpl in Hq.
  destruct (mutations_colorCalls ops s Hops) as (_ & _ & Hfresh0). fold s0 in Hfresh0.
  exists (step op s0), h, (step RunImmediates (step op s0)).
  split_and!; try done.
  - rewrite run_eq by done. by rewrite steps_app.
  - intros Hin. apply (inv_immediates_alloc s Hinv) in Hin. lia.
  - by apply (exec_eq RunImmediates).
  - simpl. rewrite Hq. unfold recomputed. by destruct (truthy _).
  - simpl. rewrite Hq, recomputed_colorCalls. simpl.
    rewrite effectiveColor_eq by (by apply Inv_fresh_notin).
    by rewrite Hcalls.
Qed.

Lemma burst_is_coalesced_witness :
  reachable (init SchemeDark)
  ∧ [Push (mkProps themedPair); Push (mkProps (JsString "#fff000"))] ≠ []
  ∧ Forall (λ op, isMutation op = true)
      [Push (mkProps themedPair); Push (mkProps (JsString "#fff000"))]
  ∧ ∃ s1 s2,
      run [Push (mkProps themedPair); Push (mkProps (JsString "#fff000"))] (init SchemeDark)
      = Some s1
      ∧ exec RunImmediates s1 = Some (tt, s2)
      ∧ length (colorCalls s2) = 1.
Proof.
  assert (reachable (init SchemeDark)) as Hreach.
  { exists SchemeDark, []. reflexivity. }
  assert ([Push (mkProps themedPair); Push (mkProps (JsString "#fff000"))] ≠ []) as Hne.
  { discriminate. }
  assert (Forall (λ op, isMutation op = true)
            [Push (mkProps themedPair); Push (mkProps (JsString "#fff000"))]) as Hops.
  { repeat constructor. }
  split_and!; [exact Hreach|exact Hne|exact Hops|].
  destruct (burst_is_coalesced _ _ Hreach Hne Hops)
    as (s1 & h & s2 & Hrun & _ & _ & _ & _ & Hexec & _ & Hcalls).
  exists s1, s2. split_and!; [exact Hrun|exact Hexec|].
  rewrite Hcalls.
  assert (s1 = steps [Push (mkProps themedPair); Push (mkProps (JsString "#fff000"))]
                 (init SchemeDark)) as ->.
  { rewrite run_eq in Hrun by apply init_Inv. congruence. }
  vm_compute. reflexivity.
Defined.

(** ** Popping twice *)

(** C7, as stated, fails: once the recompute scheduled by the first pop
    has run, a second pop of the same handle schedules another one, and
    the color setter is called once more (with the same color). *)
Lemma second_pop_after_recompute_sets_color_again :
  ∃ s s' t t',
    run [Push (mkProps themedPair); RunImmediates; Pop 1; RunImmediates] (init SchemeDark)
    = Some s
    ∧ exec (Pop 1) s = Some (tt, s')
    ∧ exec RunImmediates s = Some (tt, t)
    ∧ exec RunImmediates s' = Some (tt, t')
    ∧ colorCalls t = [JsString "#000"; JsString "#fff"]
    ∧ colorCalls t' = [JsString "#000"; JsString "#fff"; JsString "#fff"].
Proof.
  exists
    (steps [Push (mkProps themedPair); RunImmediates; Pop 1; RunImmediates]
       (init SchemeDark)),
    (steps [Push (mkProps themedPair); RunImmediates; Pop 1; RunImmediates; Pop 1]
       (init SchemeDark)),
    (steps [Push (mkProps themedPair); RunImmediates; Pop 1; RunImmediates;
            RunImmediates]
       (init SchemeDark)),
    (steps [Push (mkProps themedPair); RunImmediates; Pop 1; RunImmediates; Pop 1;
            RunImmediates]
       (init SchemeDark)).
  split_and!; vm_compute; reflexivity.
Qed.

(** C7, amended: in every state reached after a handle on the stack has
    been popped, popping it again changes neither the stack, nor the
    listeners, nor the heap, and makes no call itself; it does schedule a
    recompute.  If the recompute of an earlier operation is still pending,
    the calls to the color setter end up the same as without the second
    pop; if it has already run, the second pop causes one more call, with
    the effective color, when that color is truthy. *)
Theorem second_pop_only_reschedules (s0 : State) (entry : ref) (ops : list Op) (s : State) :
  reachable s0 →
  entry ∈ propsStack s0 →
  run (Pop entry :: ops) s0 = Some s →
  ∃ s' t t',
    exec (Pop entry) s = Some (tt, s')
    ∧ propsStack s' = propsStack s
    ∧ appearanceListener s' = appearanceListener s
    ∧ appStateListener s' = appStateListener s
    ∧ appearanceSubs s' = appearanceSubs s
    ∧ appStateSubs s' = appStateSubs s
    ∧ listenerCalls s' = listenerCalls s
    ∧ colorCalls s' = colorCalls s
    ∧ heap s' = heap s
    ∧ exec RunImmediates s = Some (tt, t)
    ∧ exec RunImmediates s' = Some (tt, t')
    ∧ colorCalls t' =
        colorCalls t ++
          match immediates s with
          | _ :: _ => []
          | [] =>
              if truthy (effectiveColor s)
              then [resolve (colorScheme s) (effectiveColor s)]
              else []
          end.
Proof.
  intros Hreach Hin Hrun. pose proof (reachable_Inv s0 Hreach) as Hinv0.
  rewrite run_eq in Hrun by done. injection Hrun as <-. simpl.
  pose proof (popped_Inv entry s0 Hinv0) as Hinv1.
  destruct (steps_absent ops (popped entry s0) entry) as [_ Habsent].
  { pose proof (step_fresh (Pop entry) s0) as Hle. simpl in Hle.
    apply (inv_stack s0 Hinv0) in Hin. lia. }
  { rewrite popped_propsStack. apply spliced_gone, (inv_nodup s0 Hinv0). }
  set (s := steps ops (popped entry s0)) in *.
  pose proof (steps_Inv ops _ Hinv1) as Hinv. fold s in Hinv.
  assert (popped entry s = scheduled s) as Hpopped.
  { unfold popped. rewrite spliced_absent, set_propsStack_id by done.
    destruct (propsStack s) eqn:Hstack; [|done].
    by destruct (listeners_free s Hinv Hstack) as (-> & _). }
  pose proof (Inv_fresh_notin s Hinv) as Hfresh.
  exists (popped entry s), (step RunImmediates s), (step RunImmediates (popped entry s)).
  rewrite Hpopped. split_and!; try done.
  - rewrite <- Hpopped. by apply popStackEntry_eq.
  - by apply runImmediates_eq.
  - rewrite <- Hpopped. apply runImmediates_eq. by apply popped_Inv.
  - simpl. rewrite recomputed_colorCalls. simpl.
    rewrite effectiveColor_eq by done. fold (mergedColor s).
    destruct (immediates s) as [|i q]; [done|].
    rewrite recomputed_colorCalls. simpl. by rewrite app_nil_r.
Qed.

Lemma second_pop_only_reschedules_witness :
  reachable (steps [Push (mkProps themedPair)] (init SchemeDark))
  ∧ 1 ∈ propsStack (steps [Push (mkProps themedPair)] (init SchemeDark))
  ∧ run [Pop 1; RunImmediates] (steps [Push (mkProps themedPair)] (init SchemeDark))
    = Some (steps [Push (mkProps themedPair); Pop 1; RunImmediates] (init SchemeDark))
  ∧ ∃ s', exec (Pop 1)
            (steps [Push (mkProps themedPair); Pop 1; RunImmediates] (init SchemeDark))
          = Some (tt, s')
          ∧ propsStack s' = [].
Proof.
  assert (reachable (steps [Push (mkProps themedPair)] (init SchemeDark))) as Hreach.
  { exists SchemeDark, [Push (mkProps themedPair)]. reflexivity. }
  assert (1 ∈ propsStack (steps [Push (mkProps themedPair)] (init SchemeDark))) as Hin.
  { vm_compute. apply list_elem_of_singleton. reflexivity. }
  assert (run [Pop 1; RunImmediates] (steps [Push (mkProps themedPair)] (init SchemeDark))
          = Some (steps [Push (mkProps themedPair); Pop 1; RunImmediates] (init SchemeDark)))
    as Hrun.
  { vm_compute. reflexivity. }
  split_and!; [exact Hreach|exact Hin|exact Hrun|].
  destruct (second_pop_only_reschedules _ 1 [RunImmediates] _ Hreach Hin Hrun)
    as (s' & t & t' & Hexec & Hstack & _).
  exists s'. split; [exact Hexec|]. rewrite Hstack. vm_compute. reflexivity.
Defined.

(** * Further properties of the module *)

(** ** What reaches the color setter *)

Lemma nullishCoalesce_given v d : isNullish d = false → isNullish (v ?? d) = false.
Proof. intros Hd. unfold nullishCoalesce. by destruct (isNullish v) eqn:Hv. Qed.

Lemma resolve_given scheme c : isNullish (resolve scheme c) = false.
Proof.
  unfold resolve.
  destruct (isThemedColor c); [destruct (isDark scheme)|]; by apply nullishCoalesce_given.
Qed.

Lemma step_colorCalls (P : JsValue → Prop) op s :
  (∀ scheme c, P (resolve scheme c)) →
  Forall P (colorCalls s) → Forall P (colorCalls (step op s)).
Proof.
  intros HP Hs.
  destruct (isMutation op) eqn:Hop.
  { by destruct (mutation_schedules op s Hop) as (_ & _ & -> & _). }
  destruct op as [props|entry|entry props|c| |scheme|]; simpl in *; try done.
  - apply Forall_app. split; [done|]. by apply Forall_singleton.
  - destruct (immediates s); [done|].
    rewrite recomputed_colorCalls. apply Forall_app. split; [done|].
    destruct (truthy _); [by apply Forall_singleton|by apply Forall_nil].
  - unfold notified. destruct (last _); simpl; [|done].
    apply Forall_app. split; [done|]. by apply Forall_singleton.
  - unfold notified. destruct (last _); simpl; [|done].
    apply Forall_app. split; [done|]. by apply Forall_singleton.
Qed.

(** X1: whatever happens, [SystemUI.setBackgroundColorAsync] is never
    handed [null] or [undefined]: every path to it goes through the
    fallbacks of [setColorAsync]. *)
Theorem color_setter_never_gets_null (s : State) :
  reachable s → Forall (λ c, isNullish c = false) (colorCalls s).
Proof.
  intros (scheme & ops & ->)%reachable_steps.
  induction ops as [|op ops IH] using rev_ind; [by apply Forall_nil|].
  rewrite steps_app. simpl. apply step_colorCalls; [|done].
  intros scheme' c. apply resolve_given.
Qed.

Lemma color_setter_never_gets_null_witness :
  reachable (steps [SetColor JsNull; Push (mkProps JsUndefined); AppStateChange]
               (init SchemeDark))
  ∧ colorCalls (steps [SetColor JsNull; Push (mkProps JsUndefined); AppStateChange]
                  (init SchemeDark))
    = [JsString "#fff"; JsString "#fff"]
  ∧ Forall (λ c, isNullish c = false)
      (colorCalls (steps [SetColor JsNull; Push (mkProps JsUndefined); AppStateChange]
                     (init SchemeDark))).
Proof.
  assert (reachable (steps [SetColor JsNull; Push (mkProps JsUndefined); AppStateChange]
                       (init SchemeDark))) as Hreach.
  { exists SchemeDark, [SetColor JsNull; Push (mkProps JsUndefined); AppStateChange].
    reflexivity. }
  split_and!; [exact Hreach|vm_compute; reflexivity|].
  exact (color_setter_never_gets_null _ Hreach).
Defined.

(** ** Handles and slots *)

Lemma indexOf_middle (l1 l2 : list ref) e :
  e ∉ l1 → indexOf (l1 ++ e :: l2) e = Some (length l1).
Proof.
  induction l1 as [|x l1 IH]; simpl.
  - intros _. by rewrite decide_True.
  - intros [Hx Hl1]%not_elem_of_cons.
    rewrite decide_False by congruence. by rewrite IH.
Qed.

Lemma spliced_middle (l1 l2 : list ref) e :
  e ∉ l1 → spliced e (l1 ++ e :: l2) = l1 ++ l2.
Proof. intros He. unfold spliced. rewrite indexOf_middle by done. apply delete_middle. Qed.

Lemma overwritten_middle (l1 l2 : list ref) e newEntry :
  e ∉ l1 → overwritten e newEntry (l1 ++ e :: l2) = l1 ++ newEntry :: l2.
Proof.
  intros He. unfold overwritten. rewrite indexOf_middle by done.
  rewrite insert_app_r_alt by lia. by rewrite Nat.sub_diag.
Qed.

Lemma NoDup_middle (l1 l2 : list ref) e :
  NoDup (l1 ++ e :: l2) → (e ∉ l1) ∧ (e ∉ l2).
Proof.
  intros (_ & Hdisj & [He2 _]%NoDup_cons)%NoDup_app. split; [|done].
  intros He1. apply (Hdisj e He1). apply elem_of_cons. by left.
Qed.

Lemma popped_heap entry s : heap (popped entry s) = heap s.
Proof.
  unfold popped.
  by destruct (spliced entry (propsStack s));
    [destruct (appearanceListener s); [destruct (appStateListener s)|]|].
Qed.

(** X2: the stack never holds an object twice and never holds
    [defaultProps]: a handle names one slot. *)
Theorem stack_entries_are_distinct (s : State) :
  reachable s → NoDup (propsStack s) ∧ defaultProps ∉ propsStack s.
Proof.
  intros Hinv%reachable_Inv. split; [by apply (inv_nodup s Hinv)|].
  intros Hin%(inv_stack s Hinv). lia.
Qed.

Lemma stack_entries_are_distinct_witness :
  reachable (steps [Push (mkProps themedPair); Push (mkProps themedPair); Replace 1 (mkProps themedPair)]
               (init SchemeLight))
  ∧ NoDup (propsStack
             (steps [Push (mkProps themedPair); Push (mkProps themedPair);
                     Replace 1 (mkProps themedPair)]
                (init SchemeLight))).
Proof.
  assert (reachable (steps [Push (mkProps themedPair); Push (mkProps themedPair);
                            Replace 1 (mkProps themedPair)]
                       (init SchemeLight))) as Hreach.
  { exists SchemeLight, [Push (mkProps themedPair); Push (mkProps themedPair);
                         Replace 1 (mkProps themedPair)].
    reflexivity. }
  split; [exact Hreach|].
  exact (proj1 (stack_entries_are_distinct _ Hreach)).
Defined.

(** X3: popping a handle that is on the stack takes out that entry and
    nothing else: the entries before and after it stay, in order, and no
    object is written to. *)
Theorem pop_removes_its_entry (s : State) (l1 l2 : list ref) (entry : ref) :
  reachable s →
  propsStack s = l1 ++ entry :: l2 →
  ∃ s', popStackEntry entry s = Some (tt, s')
        ∧ propsStack s' = l1 ++ l2
        ∧ (entry ∉ propsStack s')
        ∧ heap s' = heap s
        ∧ colorCalls s' = colorCalls s.
Proof.
  intros Hinv%reachable_Inv Hstack.
  pose proof (inv_nodup s Hinv) as Hnd. rewrite Hstack in Hnd.
  destruct (NoDup_middle _ _ _ Hnd) as [He1 He2].
  assert (propsStack (popped entry s) = l1 ++ l2) as Hstack'.
  { by rewrite popped_propsStack, Hstack, spliced_middle. }
  exists (popped entry s). split_and!.
  - by apply popStackEntry_eq.
  - done.
  - rewrite Hstack', elem_of_app. tauto.
  - apply popped_heap.
  - by destruct (mutation_schedules (Pop entry) s eq_refl) as (_ & _ & ? & _).
Qed.

Lemma pop_removes_its_entry_witness :
  reachable (steps [Push (mkProps themedPair); Push (mkProps (JsString "#fff000"));
                    Push (mkProps (JsString "#123456"))] (init SchemeLight))
  ∧ propsStack (steps [Push (mkProps themedPair); Push (mkProps (JsString "#fff000"));
                       Push (mkProps (JsString "#123456"))] (init SchemeLight))
    = [1] ++ 5 :: [7]
  ∧ ∃ s', popStackEntry 5
            (steps [Push (mkProps themedPair); Push (mkProps (JsString "#fff000"));
                    Push (mkProps (JsString "#123456"))] (init SchemeLight))
          = Some (tt, s')
          ∧ propsStack s' = [1; 7].
Proof.
  assert (reachable (steps [Push (mkProps themedPair); Push (mkProps (JsString "#fff000"));
                            Push (mkProps (JsString "#123456"))] (init SchemeLight)))
    as Hreach.
  { exists SchemeLight, [Push (mkProps themedPair); Push (mkProps (JsString "#fff000"));
                         Push (mkProps (JsString "#123456"))].
    reflexivity. }
  assert (propsStack (steps [Push (mkProps themedPair); Push (mkProps (JsString "#fff000"));
                             Push (mkProps (JsString "#123456"))] (init SchemeLight))
          = [1] ++ 5 :: [7]) as Hstack.
  { vm_compute. reflexivity. }
  split_and!; [exact Hreach|exact Hstack|].
  destruct (pop_removes_its_entry _ [1] [7] 5 Hreach Hstack) as (s' & Hpop & Hstack' & _).
  exists s'. split; [exact Hpop|exact Hstack'].
Defined.

(** X4: replacing a handle that is on the stack puts the new entry into
    the very slot of the old one; the old handle is then off the stack, so
    only the returned handle can pop or replace the entry from then on. *)
Theorem replace_keeps_the_slot
    (s : State) (l1 l2 : list ref) (entry : ref) (props : Props) :
  reachable s →
  propsStack s = l1 ++ entry :: l2 →
  ∃ newEntry s',
    replaceStackEntry entry props s = Some (newEntry, s')
    ∧ propsStack s' = l1 ++ newEntry :: l2
    ∧ colorOf (heap s') newEntry = color props
    ∧ heap s !! newEntry = None
    ∧ (entry ∉ propsStack s')
    ∧ (∃ s2, popStackEntry entry s' = Some (tt, s2) ∧ propsStack s2 = propsStack s')
    ∧ listenerCalls s' = listenerCalls s
    ∧ colorCalls s' = colorCalls s.
Proof.
  intros Hinv%reachable_Inv Hstack.
  pose proof (inv_nodup s Hinv) as Hnd. rewrite Hstack in Hnd.
  destruct (NoDup_middle _ _ _ Hnd) as [He1 He2].
  pose proof (Inv_fresh_notin s Hinv) as Hfresh. rewrite Hstack in Hfresh.
  assert (propsStack (replaced entry props s) = l1 ++ fresh s :: l2) as Hstack'.
  { simpl. by rewrite Hstack, overwritten_middle. }
  assert (entry ∉ propsStack (replaced entry props s)) as Hgone.
  { rewrite Hstack', elem_of_app, elem_of_cons. intros [?|[->|?]]; [done| |done].
    apply Hfresh. rewrite elem_of_app, elem_of_cons. tauto. }
  exists (fresh s), (replaced entry props s). split_and!; try done.
  - by apply replaceStackEntry_eq.
  - simpl. by rewrite colorOf_insert_eq.
  - by apply (inv_heap s Hinv).
  - by apply popStackEntry_absent.
Qed.

Lemma replace_keeps_the_slot_witness :
  reachable (steps [Push (mkProps themedPair); Push (mkProps (JsString "#fff000"))]
               (init SchemeLight))
  ∧ propsStack (steps [Push (mkProps themedPair); Push (mkProps (JsString "#fff000"))]
                  (init SchemeLight))
    = [] ++ 1 :: [5]
  ∧ ∃ newEntry s',
      replaceStackEntry 1 (mkProps (JsString "#123456"))
        (steps [Push (mkProps themedPair); Push (mkProps (JsString "#fff000"))]
           (init SchemeLight))
      = Some (newEntry, s')
      ∧ propsStack s' = [newEntry; 5].
Proof.
  assert (reachable (steps [Push (mkProps themedPair); Push (mkProps (JsString "#fff000"))]
                       (init SchemeLight))) as Hreach.
  { exists SchemeLight, [Push (mkProps themedPair); Push (mkProps (JsString "#fff000"))].
    reflexivity. }
  assert (propsStack (steps [Push (mkProps themedPair); Push (mkProps (JsString "#fff000"))]
                        (init SchemeLight))
          = [] ++ 1 :: [5]) as Hstack.
  { vm_compute. reflexivity. }
  split_and!; [exact Hreach|exact Hstack|].
  destruct (replace_keeps_the_slot _ [] [5] 1 (mkProps (JsString "#123456")) Hreach Hstack)
    as (newEntry & s' & Hreplace & Hstack' & _).
  exists newEntry, s'. split; [exact Hreplace|exact Hstack'].
Defined.

Lemma mergedColor_ext s s' :
  propsStack s' = propsStack s →
  (∀ r, r < fresh s → heap s' !! r = heap s !! r) →
  Inv s →
  mergedColor s' = mergedColor s.
Proof.
  intros Hstack Hheap Hinv. unfold mergedColor. rewrite Hstack. f_equal.
  - unfold colorOf. rewrite Hheap; [done|]. apply (inv_default s Hinv).
  - apply map_ext_in. intros r Hr%list_elem_of_In%(inv_stack s Hinv).
    unfold colorOf. rewrite Hheap; [done|lia].
Qed.

(** X5: a push followed by a pop of the handle it returned is a round
    trip: the stack, the color of every object that existed, the effective
    color and whether listeners are held are all as before, and the color
    setter has not been called. *)
Theorem push_then_pop_restores (s : State) (props : Props) :
  reachable s →
  ∃ entry s1 s2,
    pushStackEntry props s = Some (entry, s1)
    ∧ popStackEntry entry s1 = Some (tt, s2)
    ∧ propsStack s2 = propsStack s
    ∧ (∀ r, is_Some (heap s !! r) → heap s2 !! r = heap s !! r)
    ∧ effectiveColor s2 = effectiveColor s
    ∧ (appearanceListener s2 = None ↔ appearanceListener s = None)
    ∧ (appStateListener s2 = None ↔ appStateListener s = None)
    ∧ colorCalls s2 = colorCalls s.
Proof.
  intros Hinv%reachable_Inv.
  pose proof (pushed_Inv props s Hinv) as Hinv1.
  pose proof (popped_Inv (fresh s) _ Hinv1) as Hinv2.
  pose proof (Inv_fresh_notin s Hinv) as Hfresh.
  assert (propsStack (pushed props s) = propsStack s ++ [fresh s]) as Hstack1.
  { unfold pushed. by destruct (propsStack s). }
  assert (propsStack (popped (fresh s) (pushed props s)) = propsStack s) as Hstack2.
  { rewrite popped_propsStack, Hstack1, spliced_middle by done. apply app_nil_r. }
  assert (∀ r, r < fresh s →
               heap (popped (fresh s) (pushed props s)) !! r = heap s !! r) as Hheap.
  { intros r Hr. rewrite popped_heap.
    apply (step_heap (Push props)); [done|by left]. }
  exists (fresh s), (pushed props s), (popped (fresh s) (pushed props s)).
  split_and!.
  - by apply pushStackEntry_eq.
  - by apply popStackEntry_eq.
  - done.
  - intros r [o Hr]. apply Hheap.
    destruct (decide (r < fresh s)) as [?|Hge]; [done|].
    rewrite (inv_heap s Hinv) in Hr by lia. done.
  - rewrite !effectiveColor_eq by (by apply Inv_fresh_notin).
    by apply mergedColor_ext.
  - rewrite (inv_appearanceListener _ Hinv2), (inv_appearanceListener _ Hinv).
    by rewrite Hstack2.
  - rewrite (inv_appStateListener _ Hinv2), (inv_appStateListener _ Hinv).
    by rewrite Hstack2.
  - destruct (mutation_schedules (Pop (fresh s)) (pushed props s) eq_refl)
      as (_ & _ & Hc2 & _).
    destruct (mutation_schedules (Push props) s eq_refl) as (_ & _ & Hc1 & _).
    simpl in *. by rewrite Hc2, Hc1.
Qed.

Lemma push_then_pop_restores_witness :
  reachable (steps [Push (mkProps themedPair)] (init SchemeDark))
  ∧ ∃ entry s1 s2,
      pushStackEntry (mkProps (JsString "#fff000"))
        (steps [Push (mkProps themedPair)] (init SchemeDark)) = Some (entry, s1)
      ∧ popStackEntry entry s1 = Some (tt, s2)
      ∧ propsStack s2 = [1]
      ∧ effectiveColor s2 = themedPair.
Proof.
  assert (reachable (steps [Push (mkProps themedPair)] (init SchemeDark))) as Hreach.
  { exists SchemeDark, [Push (mkProps themedPair)]. reflexivity. }
  split; [exact Hreach|].
  destruct (push_then_pop_restores _ (mkProps (JsString "#fff000")) Hreach)
    as (entry & s1 & s2 & Hpush & Hpop & Hstack & _ & Hcolor & _).
  exists entry, s1, s2. split_and!; [exact Hpush|exact Hpop| |].
  - rewrite Hstack. vm_compute. reflexivity.
  - rewrite Hcolor. vm_compute. reflexivity.
Defined.

(** ** Merging *)

(** X6: [mergePropsStack], given any objects that exist, returns a new
    object whose color is that of the last entry whose color is neither
    [null] nor [undefined], or the color of the defaults when there is no
    such entry; no existing object is written to, the stack is not
    touched and nothing is called. *)
Theorem mergePropsStack_last_given_wins
    (s : State) (stack : list ref) (defaultValues : ref) :
  reachable s →
  (∀ r, r ∈ defaultValues :: stack → r < fresh s) →
  ∃ merged s',
    mergePropsStack stack defaultValues s = Some (merged, s')
    ∧ heap s !! merged = None
    ∧ colorOf (heap s') merged =
        default (colorOf (heap s) defaultValues)
          (last (filter (λ c, isNullish c = false) (map (colorOf (heap s)) stack)))
    ∧ (∀ r, r ≠ merged → heap s' !! r = heap s !! r)
    ∧ propsStack s' = propsStack s
    ∧ colorCalls s' = colorCalls s
    ∧ immediates s' = immediates s.
Proof.
  intros Hinv%reachable_Inv Hexist.
  assert (fresh s ∉ stack) as Hfresh.
  { intros Hin. assert (fresh s < fresh s); [|lia].
    apply Hexist. apply elem_of_cons. by right. }
  eexists _, _. split; [by apply mergePropsStack_eq|]. simpl. split_and!; try done.
  - by apply (inv_heap s Hinv).
  - rewrite colorOf_insert_eq. simpl. apply mergeColors_topmost.
  - intros r Hr. by apply lookup_insert_ne.
Qed.

Lemma mergePropsStack_last_given_wins_witness :
  reachable (steps [Push (mkProps themedPair); Push (mkProps JsUndefined)] (init SchemeLight))
  ∧ (∀ r, r ∈ 0 :: [1; 5] →
       r < fresh (steps [Push (mkProps themedPair); Push (mkProps JsUndefined)]
                    (init SchemeLight)))
  ∧ ∃ merged s',
      mergePropsStack [1; 5] 0
        (steps [Push (mkProps themedPair); Push (mkProps JsUndefined)] (init SchemeLight))
      = Some (merged, s')
      ∧ colorOf (heap s') merged = themedPair.
Proof.
  assert (reachable (steps [Push (mkProps themedPair); Push (mkProps JsUndefined)]
                       (init SchemeLight))) as Hreach.
  { exists SchemeLight, [Push (mkProps themedPair); Push (mkProps JsUndefined)].
    reflexivity. }
  assert (∀ r, r ∈ 0 :: [1; 5] →
            r < fresh (steps [Push (mkProps themedPair); Push (mkProps JsUndefined)]
                         (init SchemeLight))) as Hexist.
  { intros r Hr. vm_compute fresh.
    repeat (apply elem_of_cons in Hr as [-> | Hr]; [lia|]).
    by apply elem_of_nil in Hr. }
  split_and!; [exact Hreach|exact Hexist|].
  destruct (mergePropsStack_last_given_wins _ [1; 5] 0 Hreach Hexist)
    as (merged & s' & Hmerge & _ & Hcolor & _).
  exists merged, s'. split; [exact Hmerge|]. rewrite Hcolor. vm_compute. reflexivity.
Defined.

(** ** The default color and the stack *)

Lemma colorSet_entry_colors (c : JsValue) (s : State) :
  Inv s →
  map (colorOf (heap (colorSet c s))) (propsStack s) = map (colorOf (heap s)) (propsStack s).
Proof.
  intros Hinv. apply map_ext_in. intros r Hr%list_elem_of_In.
  by apply (step_entry_color (SetColor c)).
Qed.

(** X7: [setColor] changes the effective color only while no entry
    carries a color: on an empty stack the new default becomes the
    effective color; as soon as some entry on the stack has a color, the
    effective color is what it was, so the next recompute puts the color
    of the stack back. *)
Theorem setColor_yields_to_the_stack (s : State) (c : JsValue) :
  reachable s →
  ∃ s', setColor c s = Some (tt, s')
        ∧ (propsStack s = [] → effectiveColor s' = c)
        ∧ ((∃ r, r ∈ propsStack s ∧ isNullish (colorOf (heap s) r) = false) →
             effectiveColor s' = effectiveColor s).
Proof.
  intros Hinv%reachable_Inv.
  pose proof (step_Inv (SetColor c) s Hinv) as Hinv'. simpl in Hinv'.
  exists (colorSet c s). split; [done|].
  rewrite (effectiveColor_topmost _ Hinv'), (effectiveColor_topmost _ Hinv).
  change (propsStack (colorSet c s)) with (propsStack s).
  rewrite colorSet_entry_colors by done.
  split.
  - intros ->. simpl. by rewrite colorOf_insert_eq.
  - intros (r & Hr & Hgiven).
    assert (colorOf (heap s) r
              ∈ filter (λ c, isNullish c = false) (map (colorOf (heap s)) (propsStack s)))
      as Hin.
    { apply list_elem_of_filter. split; [done|]. by apply list_elem_of_fmap_2. }
    destruct (last _) as [top|] eqn:Hlast; [done|].
    apply last_None in Hlast. rewrite Hlast in Hin. by apply elem_of_nil in Hin.
Qed.

Lemma setColor_yields_to_the_stack_witness :
  reachable (steps [Push (mkProps (JsString "#fff000"))] (init SchemeLight))
  ∧ ∃ s', setColor themedPair (steps [Push (mkProps (JsString "#fff000"))] (init SchemeLight))
          = Some (tt, s')
          ∧ effectiveColor s' = JsString "#fff000".
Proof.
  assert (reachable (steps [Push (mkProps (JsString "#fff000"))] (init SchemeLight)))
    as Hreach.
  { exists SchemeLight, [Push (mkProps (JsString "#fff000"))]. reflexivity. }
  split; [exact Hreach|].
  destruct (setColor_yields_to_the_stack _ themedPair Hreach) as (s' & Hset & _ & Hkeep).
  exists s'. split; [exact Hset|]. rewrite Hkeep.
  - vm_compute. reflexivity.
  - exists 1. split; [vm_compute; apply list_elem_of_singleton; reflexivity|].
    vm_compute. reflexivity.
Defined.

(** ** Notifications *)

(** X8: while the stack is empty no listener is registered, so a theme
    change or an app-state change calls nothing: a themed default set
    with [setColor] is not resolved again when the theme changes. *)
Theorem notifications_do_nothing_on_empty_stack (s : State) (scheme : ColorSchemeName) :
  reachable s →
  propsStack s = [] →
  (∃ s', exec (AppearanceChange scheme) s = Some (tt, s')
         ∧ colorCalls s' = colorCalls s
         ∧ immediates s' = immediates s
         ∧ colorScheme s' = scheme)
  ∧ exec AppStateChange s = Some (tt, s).
Proof.
  intros Hinv%reachable_Inv Hstack. split.
  - eexists. split; [by apply exec_eq|]. simpl. unfold notified. simpl.
    by rewrite Hstack.
  - rewrite exec_eq by done. simpl. unfold notified. by rewrite Hstack.
Qed.

Lemma notifications_do_nothing_on_empty_stack_witness :
  reachable (steps [SetColor themedPair] (init SchemeLight))
  ∧ propsStack (steps [SetColor themedPair] (init SchemeLight)) = []
  ∧ ∃ s', exec (AppearanceChange SchemeDark) (steps [SetColor themedPair] (init SchemeLight))
          = Some (tt, s')
          ∧ colorCalls s' = [JsString "#fff"].
Proof.
  assert (reachable (steps [SetColor themedPair] (init SchemeLight))) as Hreach.
  { exists SchemeLight, [SetColor themedPair]. reflexivity. }
  assert (propsStack (steps [SetColor themedPair] (init SchemeLight)) = []) as Hstack.
  { reflexivity. }
  split_and!; [exact Hreach|exact Hstack|].
  destruct (notifications_do_nothing_on_empty_stack _ SchemeDark Hreach Hstack)
    as [(s' & Hexec & Hcalls & _) _].
  exists s'. split; [exact Hexec|]. rewrite Hcalls. vm_compute. reflexivity.
Defined.

Lemma effectiveColor_top_given s top :
  Inv s → last (propsStack s) = Some top →
  isNullish (colorOf (heap s) top) = false →
  effectiveColor s = colorOf (heap s) top.
Proof.
  intros Hinv Htop Hgiven. rewrite effectiveColor_eq by (by apply Inv_fresh_notin).
  apply last_Some in Htop as [stack Hstack]. unfold mergedColor. rewrite Hstack.
  rewrite map_app. simpl. by rewrite mergeColors_snoc, Hgiven.
Qed.

(** X9: when the last entry of the stack carries a color, the color a
    notification applies is the effective color, resolved against the
    theme: the listeners and the deferred recompute agree. *)
Theorem notification_applies_effective_color
    (s : State) (top : ref) (scheme : ColorSchemeName) :
  reachable s →
  last (propsStack s) = Some top →
  isNullish (colorOf (heap s) top) = false →
  (∃ s', exec (AppearanceChange scheme) s = Some (tt, s')
         ∧ colorCalls s' = colorCalls s ++ [resolve scheme (effectiveColor s)])
  ∧ (∃ s', exec AppStateChange s = Some (tt, s')
           ∧ colorCalls s' = colorCalls s ++ [resolve (colorScheme s) (effectiveColor s)]).
Proof.
  intros Hinv%reachable_Inv Htop Hgiven.
  rewrite (effectiveColor_top_given s top) by done.
  split; (eexists; split; [by apply exec_eq|]);
    simpl; unfold notified; simpl; by rewrite Htop.
Qed.

Lemma notification_applies_effective_color_witness :
  reachable (steps [Push (mkProps themedPair)] (init SchemeLight))
  ∧ last (propsStack (steps [Push (mkProps themedPair)] (init SchemeLight))) = Some 1
  ∧ isNullish (colorOf (heap (steps [Push (mkProps themedPair)] (init SchemeLight))) 1) = false
  ∧ ∃ s', exec (AppearanceChange SchemeDark)
            (steps [Push (mkProps themedPair)] (init SchemeLight)) = Some (tt, s')
          ∧ colorCalls s' = [JsString "#000"].
Proof.
  assert (reachable (steps [Push (mkProps themedPair)] (init SchemeLight))) as Hreach.
  { exists SchemeLight, [Push (mkProps themedPair)]. reflexivity. }
  assert (last (propsStack (steps [Push (mkProps themedPair)] (init SchemeLight))) = Some 1)
    as Htop.
  { reflexivity. }
  assert (isNullish (colorOf (heap (steps [Push (mkProps themedPair)] (init SchemeLight))) 1)
          = false) as Hgiven.
  { vm_compute. reflexivity. }
  split_and!; [exact Hreach|exact Htop|exact Hgiven|].
  destruct (notification_applies_effective_color _ 1 SchemeDark Hreach Htop Hgiven)
    as [(s' & Hexec & Hcalls) _].
  exists s'. split; [exact Hexec|]. rewrite Hcalls. vm_compute. reflexivity.
Defined.

(** X10: the listeners read the last entry only.  When its color is
    [null] or [undefined] a notification applies ['#fff'], whatever the
    entries below it and the default say. *)
Theorem notification_on_colorless_top_applies_white
    (s : State) (top : ref) (scheme : ColorSchemeName) :
  reachable s →
  last (propsStack s) = Some top →
  isNullish (colorOf (heap s) top) = true →
  (∃ s', exec (AppearanceChange scheme) s = Some (tt, s')
         ∧ colorCalls s' = colorCalls s ++ [JsString "#fff"])
  ∧ (∃ s', exec AppStateChange s = Some (tt, s')
           ∧ colorCalls s' = colorCalls s ++ [JsString "#fff"]).
Proof.
  intros Hinv%reachable_Inv Htop Hnull.
  assert (∀ scheme', resolve scheme' (colorOf (heap s) top) = JsString "#fff") as Hwhite.
  { intros scheme'. by destruct (colorOf (heap s) top). }
  split; (eexists; split; [by apply exec_eq|]);
    simpl; unfold notified; simpl; by rewrite Htop, Hwhite.
Qed.

Lemma notification_on_colorless_top_applies_white_witness :
  reachable (steps [Push (mkProps (JsString "#123456")); Push (mkProps JsUndefined)]
               (init SchemeLight))
  ∧ last (propsStack (steps [Push (mkProps (JsString "#123456")); Push (mkProps JsUndefined)]
                        (init SchemeLight))) = Some 5
  ∧ isNullish
      (colorOf (heap (steps [Push (mkProps (JsString "#123456")); Push (mkProps JsUndefined)]
                        (init SchemeLight))) 5) = true
  ∧ effectiveColor (steps [Push (mkProps (JsString "#123456")); Push (mkProps JsUndefined)]
                      (init SchemeLight)) = JsString "#123456"
  ∧ ∃ s', exec AppStateChange
            (steps [Push (mkProps (JsString "#123456")); Push (mkProps JsUndefined)]
               (init SchemeLight)) = Some (tt, s')
          ∧ colorCalls s' = [JsString "#fff"].
Proof.
  assert (reachable (steps [Push (mkProps (JsString "#123456")); Push (mkProps JsUndefined)]
                       (init SchemeLight))) as Hreach.
  { exists SchemeLight, [Push (mkProps (JsString "#123456")); Push (mkProps JsUndefined)].
    reflexivity. }
  assert (last (propsStack (steps [Push (mkProps (JsString "#123456"));
                                   Push (mkProps JsUndefined)]
                              (init SchemeLight))) = Some 5) as Htop.
  { reflexivity. }
  assert (isNullish
            (colorOf (heap (steps [Push (mkProps (JsString "#123456"));
                                   Push (mkProps JsUndefined)]
                              (init SchemeLight))) 5) = true) as Hnull.
  { vm_compute. reflexivity. }
  split_and!; [exact Hreach|exact Htop|exact Hnull|vm_compute; reflexivity|].
  destruct (notification_on_colorless_top_applies_white _ 5 SchemeLight Hreach Htop Hnull)
    as [_ (s' & Hexec & Hcalls)].
  exists s'. split; [exact Hexec|]. rewrite Hcalls. vm_compute. reflexivity.
Defined.

(** * Properties of the component *)

Lemma indexOf_lookup (l : list ref) i e :
  NoDup l → l !! i = Some e → indexOf l e = Some i.
Proof.
  intros Hnd Hi. pose proof (lookup_lt_Some _ _ _ Hi) as Hlt.
  rewrite <- (take_drop_middle l i e Hi) in Hnd |- *.
  destruct (NoDup_middle _ _ _ Hnd) as [He _].
  rewrite indexOf_middle by done. f_equal. apply length_take_le. lia.
Qed.

Lemma mount_eq props s :
  Inv s →
  (cur ← mountEffect props; colorEffect cur props) s
  = Some (Some (fresh (pushed props s)), replaced (fresh s) props (pushed props s)).
Proof.
  intros Hinv. unfold mountEffect, colorEffect. unfold mbind, M_bind.
  rewrite pushStackEntry_eq by done. unfold mret, M_ret.
  by rewrite replaceStackEntry_eq by (by apply pushed_Inv).
Qed.

Lemma pushed_propsStack props s : propsStack (pushed props s) = propsStack s ++ [fresh s].
Proof. unfold pushed. by destruct (propsStack s). Qed.

Lemma entry_colors_step op s :
  Inv s →
  colorOf (heap (step op s)) <$> propsStack s = colorOf (heap s) <$> propsStack s.
Proof.
  intros Hinv. apply list_fmap_ext. intros i r Hr.
  apply step_entry_color; [done|]. by apply list_elem_of_lookup_2 in Hr.
Qed.

Lemma handle_of_instance w i inst :
  WInv w → instances w !! i = Some inst →
  ∃ e, current inst = Some e
       ∧ propsStack (moduleState w) !! i = Some e
       ∧ indexOf (propsStack (moduleState w)) e = Some i.
Proof.
  intros [Hinv Hhandles _] Hi.
  assert ((current <$> instances w) !! i = Some (current inst)) as Hcur.
  { by rewrite list_lookup_fmap, Hi. }
  rewrite Hhandles, list_lookup_fmap in Hcur.
  destruct (propsStack (moduleState w) !! i) as [e|] eqn:He; [|done].
  injection Hcur as Hcur. exists e. split_and!; [done..|].
  apply indexOf_lookup; [apply (inv_nodup _ Hinv)|done].
Qed.

Lemma initWorld_WInv scheme : WInv (initWorld scheme).
Proof. split; [apply init_Inv|done..]. Qed.

Lemma onModule_WInv op w :
  isMutation op = false → WInv w →
  ∃ s', onModule op w = Some (mkWorld s' (instances w))
        ∧ WInv (mkWorld s' (instances w))
        ∧ propsStack s' = propsStack (moduleState w).
Proof.
  intros Hop [Hinv Hhandles Hcolors]. exists (step op (moduleState w)).
  assert (propsStack (step op (moduleState w)) = propsStack (moduleState w)) as Hstack.
  { destruct op as [props|entry|entry props|c| |scheme|]; simpl in *; try done.
    - destruct (immediates _); [done|]. unfold recomputed. by destruct (truthy _).
    - unfold notified. by destruct (last _).
    - unfold notified. by destruct (last _). }
  split_and!; [|split; simpl|done].
  - unfold onModule. by rewrite exec_eq.
  - by apply step_Inv.
  - by rewrite Hstack.
  - by rewrite Hstack, entry_colors_step.
Qed.

Lemma react_WInv ev w : WInv w → ∃ w', react ev w = Some w' ∧ WInv w'.
Proof.
  intros Hw. pose proof Hw as [Hinv Hhandles Hcolors].
  set (s := moduleState w) in *.
  destruct ev as [props|i props|i|c| |scheme|]; simpl.
  - rewrite mount_eq by done. eexists. split; [done|].
    pose proof (pushed_Inv props s Hinv) as Hinv1.
    pose proof (Inv_fresh_notin s Hinv) as Hfresh.
    assert (propsStack (replaced (fresh s) props (pushed props s))
            = propsStack s ++ [fresh (pushed props s)]) as Hstack.
    { simpl. rewrite pushed_propsStack. by apply overwritten_middle. }
    split; simpl.
    + by apply replaced_Inv.
    + fold s. rewrite pushed_propsStack, overwritten_middle by done.
      rewrite !fmap_app. by rewrite Hhandles.
    + fold s. rewrite pushed_propsStack, overwritten_middle by done.
      rewrite !fmap_app. simpl. rewrite colorOf_insert_eq. simpl. f_equal.
      rewrite Hcolors.
      rewrite map_colorOf_insert.
      * symmetry. apply (entry_colors_step (Push props)). done.
      * intros Hin%(inv_stack s Hinv). pose proof (step_fresh (Push props) s). simpl in *. lia.
  - destruct (instances w !! i) as [inst|] eqn:Hi; [|by exists w].
    destruct (handle_of_instance w i inst Hw Hi) as (e & Hcur & He & Hindex).
    rewrite Hcur. unfold colorEffect. unfold mbind, M_bind.
    rewrite replaceStackEntry_eq by done. unfold mret, M_ret.
    eexists. split; [done|].
    assert (overwritten e (fresh s) (propsStack s) = <[i := fresh s]> (propsStack s))
      as Hstack.
    { unfold overwritten. fold s in Hindex. by rewrite Hindex. }
    split; simpl.
    + by apply replaced_Inv.
    + fold s. by rewrite Hstack, !list_fmap_insert, Hhandles.
    + fold s. rewrite Hstack, !list_fmap_insert. simpl.
      rewrite colorOf_insert_eq. simpl. rewrite Hcolors.
      rewrite map_colorOf_insert; [done|]. by apply Inv_fresh_notin.
  - destruct (instances w !! i) as [inst|] eqn:Hi; [|by exists w].
    destruct (handle_of_instance w i inst Hw Hi) as (e & Hcur & He & Hindex).
    rewrite Hcur. simpl. rewrite popStackEntry_eq by done.
    eexists. split; [done|].
    assert (propsStack (popped e s) = delete i (propsStack s)) as Hstack.
    { rewrite popped_propsStack. unfold spliced. fold s in Hindex. by rewrite Hindex. }
    split; simpl.
    + by apply popped_Inv.
    + fold s. by rewrite Hstack, !list_fmap_delete, Hhandles.
    + fold s. by rewrite Hstack, popped_heap, !list_fmap_delete, Hcolors.
  - destruct (onModule_WInv (SetColor c) w eq_refl Hw) as (s' & -> & Hw' & _). eauto.
  - destruct (onModule_WInv RunImmediates w eq_refl Hw) as (s' & -> & Hw' & _). eauto.
  - destruct (onModule_WInv (AppearanceChange scheme) w eq_refl Hw) as (s' & -> & Hw' & _).
    eauto.
  - destruct (onModule_WInv AppStateChange w eq_refl Hw) as (s' & -> & Hw' & _). eauto.
Qed.

Lemma reactAll_WInv evs w : WInv w → ∃ w', reactAll evs w = Some w' ∧ WInv w'.
Proof.
  revert w. induction evs as [|ev evs IH]; intros w Hw; [by exists w|].
  simpl. destruct (react_WInv ev w Hw) as (w1 & -> & Hw1). by apply IH.
Qed.

(** X11: whatever React, the application and the system do, no effect
    of the component throws, and afterwards the stack is made of exactly
    the handles the mounted instances hold, in the order of mounting, each
    entry carrying the color its instance last rendered with. *)
Theorem stack_mirrors_mounted_instances (scheme : ColorSchemeName) (evs : list Event) :
  ∃ w, reactAll evs (initWorld scheme) = Some w
       ∧ current <$> instances w = Some <$> propsStack (moduleState w)
       ∧ colorProp <$> instances w
         = colorOf (heap (moduleState w)) <$> propsStack (moduleState w).
Proof.
  destruct (reactAll_WInv evs _ (initWorld_WInv scheme)) as (w & Hrun & [_ Hh Hc]).
  by exists w.
Qed.

Lemma react_instances_given ev w w' :
  eventGiven ev = true →
  react ev w = Some w' →
  Forall (λ inst, isNullish (colorProp inst) = false) (instances w) →
  Forall (λ inst, isNullish (colorProp inst) = false) (instances w').
Proof.
  intros Hev Hreact Hgiven.
  destruct ev as [props|i props|i|c| |scheme|]; simpl in *; unfold onModule in *;
    repeat case_match; simplify_eq/=; try done.
  - apply Forall_app. split; [done|]. apply Forall_singleton. simpl.
    by apply negb_true_iff.
  - apply Forall_insert; [done|]. simpl. by apply negb_true_iff.
  - by apply Forall_delete.
Qed.

Lemma world_effectiveColor w :
  WInv w →
  Forall (λ inst, isNullish (colorProp inst) = false) (instances w) →
  effectiveColor (moduleState w) =
    match last (instances w) with
    | Some inst => colorProp inst
    | None => colorOf (heap (moduleState w)) defaultProps
    end.
Proof.
  intros [Hinv Hhandles Hcolors] Hgiven.
  rewrite effectiveColor_top; [|done|].
  - pose proof (f_equal last Hcolors) as Hlast. rewrite !fmap_last in Hlast.
    destruct (last (instances w)), (last (propsStack (moduleState w)));
      simpl in Hlast; congruence.
  - intros r Hr.
    assert (colorOf (heap (moduleState w)) r ∈ colorProp <$> instances w) as Hin.
    { rewrite Hcolors. by apply list_elem_of_fmap_2. }
    apply list_elem_of_fmap in Hin as (inst & -> & Hinst).
    by apply (proj1 (Forall_forall _ _) Hgiven).
Qed.

(** X12: the instance mounted last wins.  When every render carries a
    color, the effective color is the color of the instance that was
    mounted most recently among those still mounted, as of its last
    render, and the default color when nothing is mounted. *)
Theorem last_mounted_instance_wins (scheme : ColorSchemeName) (evs : list Event) :
  Forall (λ ev, eventGiven ev = true) evs →
  ∃ w, reactAll evs (initWorld scheme) = Some w
       ∧ effectiveColor (moduleState w) =
           match last (instances w) with
           | Some inst => colorProp inst
           | None => colorOf (heap (moduleState w)) defaultProps
           end.
Proof.
  intros Hevs.
  assert (∀ w, WInv w →
            Forall (λ inst, isNullish (colorProp inst) = false) (instances w) →
            ∃ w', reactAll evs w = Some w' ∧ WInv w'
                  ∧ Forall (λ inst, isNullish (colorProp inst) = false) (instances w'))
    as Hall.
  { induction evs as [|ev evs IH]; intros w Hw Hgiven; [by exists w|].
    apply Forall_cons in Hevs as [Hev Hevs]. simpl.
    destruct (react_WInv ev w Hw) as (w1 & Hreact & Hw1). rewrite Hreact.
    apply IH; [done..|]. by apply (react_instances_given ev w). }
  destruct (Hall (initWorld scheme)) as (w & Hrun & Hw & Hgiven).
  { apply initWorld_WInv. }
  { apply Forall_nil_2. }
  exists w. split; [done|]. by apply world_effectiveColor.
Qed.

Lemma last_mounted_instance_wins_witness :
  Forall (λ ev, eventGiven ev = true)
    [Mount (mkProps themedPair); Mount (mkProps (JsString "#fff000"));
     Update 0 (mkProps (JsString "#123456")); Unmount 1]
  ∧ ∃ w, reactAll [Mount (mkProps themedPair); Mount (mkProps (JsString "#fff000"));
                   Update 0 (mkProps (JsString "#123456")); Unmount 1]
           (initWorld SchemeDark) = Some w
         ∧ effectiveColor (moduleState w) = JsString "#123456".
Proof.
  assert (Forall (λ ev, eventGiven ev = true)
            [Mount (mkProps themedPair); Mount (mkProps (JsString "#fff000"));
             Update 0 (mkProps (JsString "#123456")); Unmount 1]) as Hevs.
  { repeat constructor. }
  split; [exact Hevs|].
  destruct (last_mounted_instance_wins SchemeDark _ Hevs) as (w & Hrun & Hcolor).
  exists w. split; [exact Hrun|]. rewrite Hcolor.
  vm_compute in Hrun. injection Hrun as <-. reflexivity.
Defined.

(** X13: listeners are registered exactly while some instance is
    mounted: one with [Appearance] and one with [AppState] then, none
    once the last instance has unmounted. *)
Theorem listeners_live_with_the_instances (scheme : ColorSchemeName) (evs : list Event) :
  ∃ w, reactAll evs (initWorld scheme) = Some w
       ∧ match instances w with
         | [] =>
             propsStack (moduleState w) = []
             ∧ appearanceSubs (moduleState w) = []
             ∧ appStateSubs (moduleState w) = []
         | _ :: _ =>
             ∃ l l', appearanceSubs (moduleState w) = [l]
                     ∧ appStateSubs (moduleState w) = [l']
         end.
Proof.
  destruct (reactAll_WInv evs _ (initWorld_WInv scheme)) as (w & Hrun & [Hinv Hh Hc]).
  exists w. split; [done|].
  destruct (instances w) as [|inst insts] eqn:Hinsts.
  - symmetry in Hh. apply fmap_nil_inv in Hh.
    by destruct (listeners_free _ Hinv Hh) as (_ & _ & ? & ?).
  - assert (propsStack (moduleState w) ≠ []) as Hne.
    { intros Hnil. by rewrite Hnil in Hh. }
    destruct (listeners_held _ Hinv Hne) as (l & l' & _ & _ & ? & ?). by exists l, l'.
Qed.

(** X14: mounting an instance is one coalesced update.  The two effects
    push an entry and replace it at once, the color setter is not called
    meanwhile, and at the end of the unit it is called once, with the
    color of the new instance resolved against the theme, when that color
    is truthy, and not at all when it is the empty string. *)
Theorem mount_applies_its_color_once
    (scheme : ColorSchemeName) (evs : list Event) (props : Props) :
  isNullish (color props) = false →
  ∃ w w1 w2,
    reactAll evs (initWorld scheme) = Some w
    ∧ react (Mount props) w = Some w1
    ∧ react EndOfUnit w1 = Some w2
    ∧ length (propsStack (moduleState w1)) = S (length (propsStack (moduleState w)))
    ∧ colorCalls (moduleState w1) = colorCalls (moduleState w)
    ∧ colorCalls (moduleState w2) =
        colorCalls (moduleState w) ++
          (if truthy (color props)
           then [resolve (colorScheme (moduleState w)) (color props)]
           else []).
Proof.
  intros Hprops.
  destruct (reactAll_WInv evs _ (initWorld_WInv scheme)) as (w & Hrun & Hw).
  pose proof (winv_module w Hw) as Hinv. set (s := moduleState w) in *.
  pose proof (pushed_Inv props s Hinv) as Hinv1.
  pose proof (replaced_Inv (fresh s) props _ Hinv1) as Hinv2.
  set (s2 := replaced (fresh s) props (pushed props s)) in *.
  pose proof (Inv_fresh_notin s Hinv) as Hfresh.
  assert (propsStack s2 = propsStack s ++ [fresh (pushed props s)]) as Hstack.
  { unfold s2. simpl. rewrite pushed_propsStack. by apply overwritten_middle. }
  assert (colorCalls s2 = colorCalls s ∧ colorScheme s2 = colorScheme s) as [Hcalls Hscheme].
  { destruct (mutation_schedules (Push props) s eq_refl) as (_ & _ & Hc1 & Hs1).
    unfold s2. simpl. split; [exact Hc1|exact Hs1]. }
  assert (mergedColor s2 = color props) as Hmerged.
  { assert (colorOf (heap s2) (fresh (pushed props s)) = color props) as Hcolor.
    { unfold s2. simpl. by rewrite colorOf_insert_eq. }
    rewrite <- (effectiveColor_eq s2 (Inv_fresh_notin s2 Hinv2)).
    rewrite (effectiveColor_top_given s2 (fresh (pushed props s)) Hinv2).
    - done.
    - by rewrite Hstack, last_snoc.
    - by rewrite Hcolor. }
  exists w, (mkWorld s2 (instances w ++ [mkInstance (Some (fresh (pushed props s))) (color props)])),
    (mkWorld (step RunImmediates s2)
       (instances w ++ [mkInstance (Some (fresh (pushed props s))) (color props)])).
  assert (immediates s2 = [fresh (pushed props s) + 1]) as Hq.
  { unfold s2. simpl. f_equal. lia. }
  split_and!; try done.
  - simpl. fold s. by rewrite mount_eq.
  - simpl. unfold onModule. cbn [moduleState instances]. by rewrite exec_eq.
  - cbn [moduleState]. rewrite Hstack, length_app. simpl. unfold s. lia.
  - cbn [moduleState step]. rewrite Hq, recomputed_colorCalls.
    change (mergedColor (set_immediates [] s2)) with (mergedColor s2).
    change (colorCalls (set_immediates [] s2)) with (colorCalls s2).
    change (colorScheme (set_immediates [] s2)) with (colorScheme s2).
    rewrite Hmerged, Hcalls, Hscheme. done.
Qed.

Lemma mount_applies_its_color_once_witness :
  isNullish (color (mkProps themedPair)) = false
  ∧ ∃ w w1 w2,
      reactAll [Mount (mkProps (JsString "#fff000")); EndOfUnit] (initWorld SchemeDark) = Some w
      ∧ react (Mount (mkProps themedPair)) w = Some w1
      ∧ react EndOfUnit w1 = Some w2
      ∧ colorCalls (moduleState w2) = [JsString "#fff000"; JsString "#000"].
Proof.
  assert (isNullish (color (mkProps themedPair)) = false) as Hprops.
  { reflexivity. }
  split; [exact Hprops|].
  destruct (mount_applies_its_color_once SchemeDark
              [Mount (mkProps (JsString "#fff000")); EndOfUnit] (mkProps themedPair) Hprops)
    as (w & w1 & w2 & Hrun & Hmount & Hend & _ & _ & Hcalls).
  exists w, w1, w2. split_and!; [exact Hrun|exact Hmount|exact Hend|].
  rewrite Hcalls. vm_compute in Hrun. injection Hrun as <-. reflexivity.
Defined.

(** X15: mounting an instance and unmounting it again is a round trip:
    the instances, the stack and the effective color are what they were
    before, so the color of whatever was mounted before comes back. *)
Theorem mount_then_unmount_restores
    (scheme : ColorSchemeName) (evs : list Event) (props : Props) :
  ∃ w w1 w2,
    reactAll evs (initWorld scheme) = Some w
    ∧ react (Mount props) w = Some w1
    ∧ react (Unmount (length (instances w))) w1 = Some w2
    ∧ instances w2 = instances w
    ∧ propsStack (moduleState w2) = propsStack (moduleState w)
    ∧ effectiveColor (moduleState w2) = effectiveColor (moduleState w)
    ∧ colorCalls (moduleState w2) = colorCalls (moduleState w).
Proof.
  destruct (reactAll_WInv evs _ (initWorld_WInv scheme)) as (w & Hrun & Hw).
  pose proof (winv_module w Hw) as Hinv. set (s := moduleState w) in *.
  pose proof (pushed_Inv props s Hinv) as Hinv1.
  pose proof (replaced_Inv (fresh s) props _ Hinv1) as Hinv2.
  set (s2 := replaced (fresh s) props (pushed props s)) in *.
  set (e2 := fresh (pushed props s)).
  pose proof (popped_Inv e2 s2 Hinv2) as Hinv3.
  pose proof (Inv_fresh_notin s Hinv) as Hfresh.
  pose proof (step_fresh (Push props) s) as Hle. simpl in Hle. fold e2 in Hle.
  assert (e2 ∉ propsStack s) as He2.
  { intros Hin%(inv_stack s Hinv). lia. }
  assert (propsStack s2 = propsStack s ++ [e2]) as Hstack2.
  { unfold s2. simpl. rewrite pushed_propsStack. by apply overwritten_middle. }
  assert (propsStack (popped e2 s2) = propsStack s) as Hstack3.
  { rewrite popped_propsStack, Hstack2, spliced_middle by done. apply app_nil_r. }
  assert (∀ r, r < fresh s → heap (popped e2 s2) !! r = heap s !! r) as Hheap.
  { intros r Hr. rewrite popped_heap. unfold s2. simpl.
    rewrite lookup_insert_ne by (unfold e2 in Hle; lia).
    apply (step_heap (Push props)); [done|by left]. }
  exists w, (mkWorld s2 (instances w ++ [mkInstance (Some e2) (color props)])),
    (mkWorld (popped e2 s2) (instances w)).
  split_and!; try done.
  - simpl. fold s. by rewrite mount_eq.
  - simpl. rewrite lookup_app_r, Nat.sub_diag by lia. simpl.
    rewrite popStackEntry_eq by done.
    by rewrite (delete_middle (instances w) []), app_nil_r.
  - cbn [moduleState]. rewrite !effectiveColor_eq by (by apply Inv_fresh_notin).
    by apply mergedColor_ext.
  - cbn [moduleState].
    destruct (mutation_schedules (Pop e2) s2 eq_refl) as (_ & _ & Hc3 & _).
    destruct (mutation_schedules (Push props) s eq_refl) as (_ & _ & Hc1 & _).
    simpl in Hc3. rewrite Hc3. unfold s2. simpl. exact Hc1.
Qed.
